(** * textshell: the pipeline language of [src/pipes.ts] and [src/commands.ts]

    A shallow embedding of the pipe factories ([sort], [uniq], [help]), of the
    registry lookup [PIPES[pipeName]], of [parsePipe] and of [parsePipeline],
    followed by the properties of the parser and of the built pipelines.

    Conventions of the embedding.
    - A JavaScript string is the list of its UTF-16 code units ([jsstring]).
    - A computation is a trace of observable events together with a
      completion: a value, or a thrown error.
    - Function values are defunctionalised: [Stage] lists what a registry
      lookup followed by a call can evaluate to, [Pipe] what [parsePipeline]
      returns, and [callStage] / [callPipe] apply them.
    - [Intl.Collator.prototype.compare] belongs to the host (ICU); it is a
      variable of the development, and the facts ECMA-402 gives about it are
      hypotheses of the theorems that need them. *)

From Stdlib Require Import List NArith ZArith Bool Ascii String Lia.
From Stdlib Require Import Permutation Sorted.
Import ListNotations.

Set Implicit Arguments.

(** ** JavaScript strings *)

Definition codeunit := N.
Definition jsstring := list codeunit.

(** A literal of the source, as code units (ASCII literals only). *)
Definition str (s : string) : jsstring :=
  map N_of_ascii (list_ascii_of_string s).

Definition codeunit_eqb (a b : codeunit) : bool := N.eqb a b.

Fixpoint jsstring_eqb (a b : jsstring) : bool :=
  match a, b with
  | [], [] => true
  | x :: a', y :: b' => codeunit_eqb x y && jsstring_eqb a' b'
  | _, _ => false
  end.

(** [WhiteSpace] and [LineTerminator] of ECMA-262: the code units removed by
    [String.prototype.trim] and matched by the regular expression class
    [\s]. *)
Definition isWhiteSpace (c : codeunit) : bool :=
  let one := N.eqb c in
  (one 9 || one 10 || one 11 || one 12 || one 13 || one 32 || one 160
   || one 5760 || (N.leb 8192 c && N.leb c 8202)
   || one 8232 || one 8233 || one 8239 || one 8287 || one 12288
   || one 65279)%N.

Fixpoint trimStart (s : jsstring) : jsstring :=
  match s with
  | [] => []
  | c :: r => if isWhiteSpace c then trimStart r else s
  end.

Definition trimEnd (s : jsstring) : jsstring := rev (trimStart (rev s)).

(** [s.trim()] *)
Definition trim (s : jsstring) : jsstring := trimEnd (trimStart s).

(** [s.split(sep)] for a separator of one code unit: one more piece than
    there are separators, so at least one piece. *)
Fixpoint split (sep : codeunit) (s : jsstring) : list jsstring :=
  match s with
  | [] => [[]]
  | c :: r =>
      if codeunit_eqb c sep then [] :: split sep r
      else match split sep r with
           | [] => [[c]]
           | piece :: pieces => (c :: piece) :: pieces
           end
  end.

(** [s.split(/\s+/)]: the string is cut at every maximal run of white space.
    [piece] is the current piece, most recent code unit first; [inRun] tells
    that the last code unit read was white space (the run is being
    skipped). A run at the start or at the end leaves an empty piece there,
    and the empty string gives one empty piece. *)
Fixpoint splitWhiteSpaceFrom (inRun : bool) (piece s : jsstring)
  : list jsstring :=
  match s with
  | [] => [rev piece]
  | c :: r =>
      if isWhiteSpace c then
        if inRun then splitWhiteSpaceFrom true [] r
        else rev piece :: splitWhiteSpaceFrom true [] r
      else splitWhiteSpaceFrom false (c :: piece) r
  end.

Definition splitWhiteSpace (s : jsstring) : list jsstring :=
  splitWhiteSpaceFrom false [] s.

(** ** Errors, events and computations *)

(** The engine's own [TypeError]s: calling a value that is not a function,
    and a built-in method that needs an object as [this] called with
    [this = undefined]. Their message text is the engine's. *)
Inductive TypeErrorCause : Type :=
  | NotAFunction
  | UndefinedReceiver.

Inductive JsError : Type :=
  | Error (message : jsstring)
  | TypeError (cause : TypeErrorCause).

(** What a run lets the outside observe, in order: a call [factory(args)] in
    [parsePipe] (recorded with the name that was looked up), and the request
    to the editor made by the [help] pipe. *)
Inductive Event : Type :=
  | FactoryCalled (pipeName : jsstring) (args : list jsstring)
  | HelpDocumentShown.

Inductive Completion (A : Type) : Type :=
  | Normal (value : A)
  | Throw (e : JsError).

Arguments Normal {A} value.
Arguments Throw {A} e.

Definition M (A : Type) : Type := (list Event * Completion A)%type.

Definition ret {A} (a : A) : M A := ([], Normal a).
Definition throw {A} (e : JsError) : M A := ([], Throw e).
Definition tell (ev : Event) : M unit := ([ev], Normal tt).

Definition bind {A B} (m : M A) (k : A -> M B) : M B :=
  match m with
  | (evs, Normal a) => let '(evs', c) := k a in (evs ++ evs', c)
  | (evs, Throw e) => (evs, Throw e)
  end.

Notation "x <- m ;; k" := (bind m (fun x => k))
  (at level 61, m at next level, right associativity).
Notation "m ;;; k" := (bind m (fun _ => k))
  (at level 61, right associativity).

(** [array.map(f)]: [f] runs on the elements from left to right, and the
    first throw ends the whole call. *)
Fixpoint Array_map {A B} (f : A -> M B) (l : list A) : M (list B) :=
  match l with
  | [] => ret []
  | x :: r => y <- f x ;; ys <- Array_map f r ;; ret (y :: ys)
  end.

(** [array.reduce(f, init)] *)
Fixpoint Array_reduce {A B} (f : B -> A -> M B) (l : list A) (init : B) : M B :=
  match l with
  | [] => ret init
  | x :: r => acc <- f init x ;; Array_reduce f r acc
  end.

(** ** [lines.toSorted(comparator)]

    For a consistent comparator ECMA-262 fixes the result: the stable sorted
    permutation. Insertion from the right computes it: an element goes in
    front of the first element it does not compare greater than. *)
Definition Comparator := jsstring -> jsstring -> Z.

Fixpoint insertSorted (comparator : Comparator) (x : jsstring)
  (sorted : list jsstring) : list jsstring :=
  match sorted with
  | [] => [x]
  | y :: r =>
      if (comparator x y <=? 0)%Z then x :: y :: r
      else y :: insertSorted comparator x r
  end.

Definition toSorted (comparator : Comparator) (lines : list jsstring)
  : list jsstring :=
  fold_right (insertSorted comparator) [] lines.

(** ** The object [uniques] of [uniq]

    An object created by [{}] whose properties all hold [true]: it is known
    by its own keys, in the order of their creation. *)
Definition JsObject := list jsstring.

Definition emptyObject : JsObject := [].

(** [acc[key] = true]. The key [__proto__] reaches the setter inherited from
    [Object.prototype], which ignores a value that is neither an object nor
    [null]; an own key keeps its place; any other key is created last. *)
Definition setTrue (acc : JsObject) (key : jsstring) : JsObject :=
  if jsstring_eqb key (str "__proto__") then acc
  else if existsb (jsstring_eqb key) acc then acc
  else acc ++ [key].

Definition isDigit (c : codeunit) : bool := (N.leb 48 c && N.leb c 57)%N.

Fixpoint digitsValue (acc : N) (s : jsstring) : option N :=
  match s with
  | [] => Some acc
  | c :: r => if isDigit c then digitsValue (acc * 10 + (c - 48))%N r else None
  end.

(** An array index: the canonical decimal form of an integer from 0 to
    2^32 - 2. *)
Definition arrayIndex (key : jsstring) : option N :=
  match key with
  | [] => None
  | c :: r =>
      if codeunit_eqb c 48%N && negb (Nat.eqb (List.length r) 0) then None
      else match digitsValue 0 key with
           | Some n => if (n <=? 4294967294)%N then Some n else None
           | None => None
           end
  end.

Definition isArrayIndex (key : jsstring) : bool :=
  match arrayIndex key with Some _ => true | None => false end.

Definition indexValue (key : jsstring) : N :=
  match arrayIndex key with Some n => n | None => 0%N end.

Fixpoint insertIndex (key : jsstring) (keys : list jsstring) : list jsstring :=
  match keys with
  | [] => [key]
  | k :: r =>
      if (indexValue key <=? indexValue k)%N then key :: k :: r
      else k :: insertIndex key r
  end.

(** [Object.keys(o)]: the array indices in ascending numeric order, then the
    other keys in the order of their creation. *)
Definition Object_keys (o : JsObject) : list jsstring :=
  fold_right insertIndex [] (filter isArrayIndex o)
  ++ filter (fun k => negb (isArrayIndex k)) o.

(** ** Pipes *)

(** What [factory(args)] can evaluate to in [parsePipe], hence what the
    array [pipes] can hold: the three functions returned by the factories of
    the source, and the two values that calls of functions inherited from
    [Object.prototype] return. *)
Inductive Stage : Type :=
  | SortLines (comparator : Comparator)
  | UniqLines
  | HelpLines
  | ArrayValue (items : list jsstring)
  | StringValue (s : jsstring).

(** The two functions [parsePipeline] returns: [NOOP] and the closure
    [pipeline] over [pipes]. *)
Inductive Pipe : Type :=
  | NOOP
  | pipeline (pipes : list Stage).

(** [[Pipe, null] | [null, Error]] *)
Inductive ParseResult : Type :=
  | Parsed (pipe : Pipe)
  | Failed (error : JsError).

(** [pipe(lines)] for an element of [pipes]. *)
Definition callStage (pipe : Stage) (lines : list jsstring)
  : M (list jsstring) :=
  match pipe with
  | SortLines comparator => ret (toSorted comparator lines)
  | UniqLines =>
      uniques <- Array_reduce (fun acc line => ret (setTrue acc line))
                   lines emptyObject ;;
      ret (Object_keys uniques)
  | HelpLines => tell HelpDocumentShown ;;; ret lines
  | ArrayValue _ | StringValue _ => throw (TypeError NotAFunction)
  end.

(** [pipe(lines)] for a result of [parsePipeline]. *)
Definition callPipe (pipe : Pipe) (lines : list jsstring)
  : M (list jsstring) :=
  match pipe with
  | NOOP => ret lines
  | pipeline pipes =>
      Array_reduce (fun inp pipe => callStage pipe inp) pipes lines
  end.

(** ** The registry *)

(** The functions that [Object.prototype] gives to every object literal. *)
Inductive ObjectPrototypeFunction : Type :=
  | Object_constructor
  | Object_toString
  | Object_toLocaleString
  | Object_valueOf
  | Object_hasOwnProperty
  | Object_isPrototypeOf
  | Object_propertyIsEnumerable
  | Object_defineGetter
  | Object_defineSetter
  | Object_lookupGetter
  | Object_lookupSetter.

Inductive OwnFactory : Type :=
  | help_factory
  | sort_factory
  | uniq_factory.

(** The value of [PIPES[pipeName]]. *)
Inductive Lookup : Type :=
  | Own (factory : OwnFactory)
  | Inherited (f : ObjectPrototypeFunction)
  | ObjectPrototype
  | Undefined.

Definition inheritedNames : list (string * Lookup) :=
  [ ("constructor", Inherited Object_constructor);
    ("toString", Inherited Object_toString);
    ("toLocaleString", Inherited Object_toLocaleString);
    ("valueOf", Inherited Object_valueOf);
    ("hasOwnProperty", Inherited Object_hasOwnProperty);
    ("isPrototypeOf", Inherited Object_isPrototypeOf);
    ("propertyIsEnumerable", Inherited Object_propertyIsEnumerable);
    ("__defineGetter__", Inherited Object_defineGetter);
    ("__defineSetter__", Inherited Object_defineSetter);
    ("__lookupGetter__", Inherited Object_lookupGetter);
    ("__lookupSetter__", Inherited Object_lookupSetter);
    ("__proto__", ObjectPrototype) ]%string.

Definition ownNames : list (string * Lookup) :=
  [ ("help", Own help_factory);
    ("sort", Own sort_factory);
    ("uniq", Own uniq_factory) ]%string.

Fixpoint getProperty (properties : list (string * Lookup)) (key : jsstring)
  : option Lookup :=
  match properties with
  | [] => None
  | (name, v) :: r =>
      if jsstring_eqb key (str name) then Some v else getProperty r key
  end.

(** [PIPES[pipeName]]: an own property of [PIPES], else a property of its
    prototype [Object.prototype], else [undefined]. *)
Definition PIPES_get (pipeName : jsstring) : Lookup :=
  match getProperty ownNames pipeName with
  | Some v => v
  | None =>
      match getProperty inheritedNames pipeName with
      | Some v => v
      | None => Undefined
      end
  end.

(** A pattern of [ts-pattern] that is an array of string literals matches
    the arrays of the same length with the same elements. *)
Fixpoint matchesTuple (pattern : list string) (value : list jsstring) : bool :=
  match pattern, value with
  | [], [] => true
  | p :: pattern', v :: value' =>
      jsstring_eqb v (str p) && matchesTuple pattern' value'
  | _, _ => false
  end.

Definition ensureError (e : JsError) : JsError := e.

(** A comparator to run the development on: code units compared from the
    left, a proper prefix first. *)
Fixpoint codeunitCompare (a b : jsstring) : Z :=
  match a, b with
  | [], [] => 0
  | [], _ :: _ => -1
  | _ :: _, [] => 1
  | x :: a', y :: b' =>
      if (x <? y)%N then -1
      else if (y <? x)%N then 1
      else codeunitCompare a' b'
  end.

(** The lines of [lines] without their later repetitions, each at the place
    of its first occurrence ([seen]: the lines met so far). This is the
    reading of [uniq] that its output is compared with. *)
Fixpoint firstOccurrencesFrom (seen lines : list jsstring) : list jsstring :=
  match lines with
  | [] => []
  | line :: r =>
      if existsb (jsstring_eqb line) seen then firstOccurrencesFrom seen r
      else line :: firstOccurrencesFrom (line :: seen) r
  end.

Definition firstOccurrences (lines : list jsstring) : list jsstring :=
  firstOccurrencesFrom [] lines.

(** The left-to-right application of stages, written as a fold over
    computations: the output of what came before is the input of the next
    stage. This is the reading of pipeline execution that [callPipe] is
    compared with. *)
Definition applyInOrder (pipes : list Stage) (lines : list jsstring)
  : M (list jsstring) :=
  fold_left (fun done pipe => bind done (callStage pipe)) pipes (ret lines).

(** The stage substrings of a pipeline text, and the command name and the
    argument tokens of a stage substring, as [parsePipeline] and [parsePipe]
    compute them. *)
Definition stagesOf (text : jsstring) : list jsstring :=
  map trim (split 124%N text).

Definition commandName (stage : jsstring) : jsstring :=
  match splitWhiteSpace (trim stage) with
  | pipeName :: _ => pipeName
  | [] => str "undefined"
  end.

Definition commandArgs (stage : jsstring) : list jsstring :=
  match splitWhiteSpace (trim stage) with
  | _ :: args => args
  | [] => []
  end.

(** The event of the call [factory(args)] that [parsePipe] makes for a stage
    substring. *)
Definition factoryCall (stage : jsstring) : Event :=
  FactoryCalled (commandName stage) (commandArgs stage).

(** The functions returned by the factories of the source. *)
Definition isTransform (pipe : Stage) : bool :=
  match pipe with
  | SortLines _ | UniqLines | HelpLines => true
  | ArrayValue _ | StringValue _ => false
  end.

(** [a] may stand before [b] in a list sorted with [comparator]. *)
Definition before (comparator : Comparator) (a b : jsstring) : Prop :=
  (comparator a b <= 0)%Z.

Definition registryKeys : list jsstring := map (fun p => str (fst p)) ownNames.

Definition objectPrototypeNames : list jsstring :=
  map (fun p => str (fst p)) inheritedNames.

Definition sortArguments : list (list jsstring) :=
  [ []; [str "asc"]; [str "-d"]; [str "desc"] ].

Section Textshell.

(** [collator.compare] of
    [new Intl.Collator(undefined, { numeric: true, usage: 'sort' })]. *)
Variable collator_compare : Comparator.

Definition sort (args : list jsstring) : M Stage :=
  if matchesTuple [] args || matchesTuple ["asc"%string] args then
    ret (SortLines collator_compare)
  else if matchesTuple ["-d"%string] args
          || matchesTuple ["desc"%string] args then
    ret (SortLines (fun a b => (- collator_compare a b)%Z))
  else throw (Error (str "Invalid arguments")).

Definition uniq (args : list jsstring) : M Stage :=
  if Nat.ltb 0 (List.length args) then throw (Error (str "Invalid arguments"))
  else ret UniqLines.

Definition help (args : list jsstring) : M Stage := ret HelpLines.

(** [factory(args)], called with [this = undefined].
    - [Object(args)] returns the array [args];
    - [Object.prototype.toString] answers ["[object Undefined]"];
    - the other functions of [Object.prototype] convert [this] to an object
      and throw;
    - [Object.prototype] itself is not a function. *)
Definition callFactory (factory : Lookup) (args : list jsstring) : M Stage :=
  match factory with
  | Own help_factory => help args
  | Own sort_factory => sort args
  | Own uniq_factory => uniq args
  | Inherited Object_constructor => ret (ArrayValue args)
  | Inherited Object_toString => ret (StringValue (str "[object Undefined]"))
  | Inherited _ => throw (TypeError UndefinedReceiver)
  | ObjectPrototype | Undefined => throw (TypeError NotAFunction)
  end.

(** [split] gives at least one token; were there none, [pipeName] would be
    [undefined], which reads as the key and the text ["undefined"]. *)
Definition parsePipe (text : jsstring) : M Stage :=
  let '(pipeName, args) :=
    match splitWhiteSpace (trim text) with
    | pipeName :: args => (pipeName, args)
    | [] => (str "undefined", [])
    end in
  let factory := PIPES_get pipeName in
  match factory with
  | Undefined => throw (Error (str "Unknown command: " ++ pipeName))
  | _ => tell (FactoryCalled pipeName args) ;;; callFactory factory args
  end.

(** [parsePipeline(text, { check })] catches every throw of its [try] block
    and so always returns: the events of the run and one of the two
    tuples. *)
Definition parsePipeline (text : jsstring) (check : bool)
  : list Event * ParseResult :=
  match Array_map parsePipe (map trim (split 124%N text)) with
  | (evs, Throw e) => (evs, Failed (ensureError e))
  | (evs, Normal pipes) =>
      if check || Nat.eqb (List.length pipes) 0 then (evs, Parsed NOOP)
      else (evs, Parsed (pipeline pipes))
  end.

End Textshell.

(** ** The editor glue: [getTextLines] and the command handler of [activate]

    The host editor is known through the members the source reads: a
    selection, and a document with [lineAt(n).text] and [getText(range)]. *)

Record Position : Type := mkPosition { line : nat; character : nat }.

Record Range : Type := mkRange { start : Position; end_ : Position }.

(** [new vscode.Range(startLine, startCharacter, endLine, endCharacter)] *)
Definition newRange (startLine startCharacter endLine endCharacter : nat)
  : Range :=
  mkRange (mkPosition startLine startCharacter)
          (mkPosition endLine endCharacter).

Record TextDocument : Type := mkTextDocument {
  lineAt_text : nat -> jsstring;
  getText : Range -> jsstring
}.

Record TextEditor : Type := mkTextEditor {
  selection : Range;
  document : TextDocument
}.

(** [array.join(sep)] on an array of strings. *)
Fixpoint join (sep : jsstring) (l : list jsstring) : jsstring :=
  match l with
  | [] => []
  | [x] => x
  | x :: r => x ++ sep ++ join sep r
  end.

Definition getTextLines (editor : option TextEditor)
  : list jsstring * Range :=
  match editor with
  | None => ([], newRange 0 0 0 0)
  | Some editor =>
      let start := start (selection editor) in
      let end_ := end_ (selection editor) in
      let newSelection :=
        newRange (line start) 0 (line end_)
          (List.length (lineAt_text (document editor) (line end_))) in
      (split 10%N (getText (document editor) newSelection), newSelection)
  end.

(** How a run of the command handler ends.
    - [Dismissed]: the input box gave no text, the handler returned at
      once;
    - [ErrorShown error]: [showErrorMessage(error.message)];
    - [Replaced selection text]: [editBuilder.replace(selection, text)];
    - [NothingReplaced]: the pipeline ran, and there is no active editor;
    - [Rejected e]: [pipe(lines)] threw [e]. *)
Inductive Outcome : Type :=
  | Dismissed
  | ErrorShown (error : JsError)
  | Replaced (selection : Range) (text : jsstring)
  | NothingReplaced
  | Rejected (e : JsError).

(** A document to run the development on: its lines end with a line feed,
    and [getText] gives back whole lines. *)
Definition documentOfLines (lines : list jsstring) : TextDocument :=
  mkTextDocument
    (fun n => nth n lines [])
    (fun range =>
       join [10%N]
         (firstn (S (line (end_ range) - line (start range)))
            (skipn (line (start range)) lines))).

(** An editor to run the development on: three lines, the selection from
    inside the first line to the start of the second. *)
Definition exampleEditor : TextEditor :=
  mkTextEditor (newRange 0 1 1 0)
    (documentOfLines [str "b"; str "a"; str "c"]).

(** The lines of [lines] that are not the key [__proto__]. *)
Definition withoutProto (lines : list jsstring) : list jsstring :=
  filter (fun l => negb (jsstring_eqb l (str "__proto__"))) lines.

(** The number of code units of [s] equal to [sep]. *)
Definition countCodeunit (sep : codeunit) (s : jsstring) : nat :=
  List.length (filter (fun c => codeunit_eqb c sep) s).

(** The array [pipes] that a pipe returned by [parsePipeline] closes over;
    [NOOP] closes over none. *)
Definition pipesOf (pipe : Pipe) : list Stage :=
  match pipe with
  | NOOP => []
  | pipeline pipes => pipes
  end.

Definition isFactoryCalled (ev : Event) : bool :=
  match ev with
  | FactoryCalled _ _ => true
  | HelpDocumentShown => false
  end.

Section Extension.

Variable collator_compare : Comparator.

(** [validateInput] of the input box: [None] for [null], [Some err] for
    the warning that shows [err.message]. *)
Definition validateInput (inp : jsstring) : list Event * option JsError :=
  match parsePipeline collator_compare inp true with
  | (evs, Failed err) => (evs, Some err)
  | (evs, Parsed _) => (evs, None)
  end.

(** The handler of [textshell.executeCommand], from the text the input box
    resolved to ([None] when it was dismissed) and the active editor
    ([None] when there is none). *)
Definition executeCommand (cmdText : option jsstring)
  (activeTextEditor : option TextEditor) : list Event * Outcome :=
  match cmdText with
  | None | Some [] => ([], Dismissed)
  | Some cmdText =>
      match parsePipeline collator_compare cmdText false with
      | (evs, Failed error) => (evs, ErrorShown error)
      | (evs, Parsed pipe) =>
          let '(lines, selection) := getTextLines activeTextEditor in
          match callPipe pipe lines with
          | (evs', Throw e) => (evs ++ evs', Rejected e)
          | (evs', Normal out) =>
              match activeTextEditor with
              | Some _ =>
                  (evs ++ evs', Replaced selection (join [10%N] out))
              | None => (evs ++ evs', NothingReplaced)
              end
          end
      end
  end.

End Extension.

Example split_empty : split 124%N (str "") = [str ""].
Proof. reflexivity. Qed.

Example split_two : split 124%N (str "uniq | sort") = [str "uniq "; str " sort"].
Proof. reflexivity. Qed.

Example split_doubled : split 124%N (str "a||b") = [str "a"; str ""; str "b"].
Proof. reflexivity. Qed.

Example trim_both : trim (str "  sort   desc ") = str "sort   desc".
Proof. reflexivity. Qed.

Example splitWhiteSpace_tokens :
  splitWhiteSpace (str "sort   desc") = [str "sort"; str "desc"].
Proof. reflexivity. Qed.

Example splitWhiteSpace_empty : splitWhiteSpace (str "") = [str ""].
Proof. reflexivity. Qed.

Example splitWhiteSpace_edges :
  splitWhiteSpace (str " a ") = [str ""; str "a"; str ""].
Proof. reflexivity. Qed.

(** ** Strings *)

Lemma jsstring_eqb_eq (a b : jsstring) : jsstring_eqb a b = true <-> a = b.
Proof.
  revert b; induction a as [|x a IH]; intros [|y b]; simpl;
    try (split; [discriminate | discriminate]); try tauto.
  unfold codeunit_eqb. rewrite andb_true_iff, N.eqb_eq, IH.
  split; [intros [-> ->]; reflexivity | intros H; inversion H; auto].
Qed.

Lemma jsstring_eqb_refl (a : jsstring) : jsstring_eqb a a = true.
Proof. apply jsstring_eqb_eq; reflexivity. Qed.

Lemma jsstring_eqb_neq (a b : jsstring) : jsstring_eqb a b = false <-> a <> b.
Proof.
  rewrite <- jsstring_eqb_eq. destruct (jsstring_eqb a b); split; congruence.
Qed.

Lemma split_cons (sep : codeunit) (s : jsstring) :
  exists piece pieces, split sep s = piece :: pieces.
Proof.
  induction s as [|c r [p [ps IH]]]; simpl; [eauto|].
  destruct (codeunit_eqb c sep); [eauto|]. rewrite IH. eauto.
Qed.

(** Cutting a text at one of its separators cuts its list of pieces. *)
Lemma split_app (sep : codeunit) (a b : jsstring) :
  split sep (a ++ sep :: b) = split sep a ++ split sep b.
Proof.
  induction a as [|c a IH]; simpl.
  - unfold codeunit_eqb. rewrite N.eqb_refl. reflexivity.
  - destruct (codeunit_eqb c sep); [rewrite IH; reflexivity|].
    rewrite IH. destruct (split_cons sep a) as [p [ps ->]]. reflexivity.
Qed.

Lemma stagesOf_app (a b : jsstring) :
  stagesOf (a ++ 124%N :: b) = stagesOf a ++ stagesOf b.
Proof. unfold stagesOf. rewrite split_app, map_app. reflexivity. Qed.

Lemma stagesOf_cons (text : jsstring) :
  exists stage stages, stagesOf text = stage :: stages.
Proof.
  unfold stagesOf. destruct (split_cons 124%N text) as [p [ps ->]].
  simpl. eauto.
Qed.

Lemma splitWhiteSpaceFrom_cons (inRun : bool) (piece s : jsstring) :
  exists token tokens, splitWhiteSpaceFrom inRun piece s = token :: tokens.
Proof.
  revert inRun piece; induction s as [|c r IH]; intros inRun piece; simpl;
    [eauto|].
  destruct (isWhiteSpace c); [destruct inRun|]; eauto.
Qed.

(** ** Computations *)

Lemma bind_ret_l {A B} (a : A) (k : A -> M B) : bind (ret a) k = k a.
Proof. unfold bind, ret. destruct (k a). reflexivity. Qed.

Lemma bind_assoc {A B C} (m : M A) (k : A -> M B) (h : B -> M C) :
  bind (bind m k) h = bind m (fun a => bind (k a) h).
Proof.
  destruct m as [evs [a|e]]; simpl; [|reflexivity].
  destruct (k a) as [evs' [b|e]]; simpl; [|reflexivity].
  destruct (h b) as [evs'' c]. rewrite app_assoc. reflexivity.
Qed.

Lemma bind_throw {A B} (evs : list Event) (e : JsError) (k : A -> M B) :
  bind (evs, Throw e) k = (evs, Throw e).
Proof. reflexivity. Qed.

Lemma Array_map_app {A B} (f : A -> M B) (l1 l2 : list A) :
  Array_map f (l1 ++ l2) =
  (ys1 <- Array_map f l1 ;; ys2 <- Array_map f l2 ;; ret (ys1 ++ ys2)).
Proof.
  induction l1 as [|x l1 IH]; cbn [Array_map app].
  - rewrite bind_ret_l. destruct (Array_map f l2) as [evs [ys|e]];
      cbn; [rewrite app_nil_r|]; reflexivity.
  - rewrite IH, !bind_assoc. destruct (f x) as [evs [y|e]]; cbn [bind];
      [|reflexivity].
    destruct (Array_map f l1) as [evs1 [ys1|e]]; cbn; [|reflexivity].
    destruct (Array_map f l2) as [evs2 [ys2|e]]; cbn;
      rewrite ?app_nil_r, <- ?app_assoc; reflexivity.
Qed.

(** The first throw ends [map]: what follows the throwing element is not
    looked at, and the events are those of the elements up to it. *)
Lemma Array_map_first_throw {A B} (f : A -> M B) (pre post : list A) (x : A)
  (evs evs' : list Event) (ys : list B) (e : JsError) :
  Array_map f pre = (evs, Normal ys) ->
  f x = (evs', Throw e) ->
  Array_map f (pre ++ x :: post) = (evs ++ evs', Throw e).
Proof.
  intros Hpre Hx. rewrite Array_map_app, Hpre. simpl. rewrite Hx. simpl.
  reflexivity.
Qed.

(** [map] returns as many results as there are elements. *)
Lemma Array_map_length {A B} (f : A -> M B) (l : list A) (evs : list Event)
  (ys : list B) :
  Array_map f l = (evs, Normal ys) -> List.length ys = List.length l.
Proof.
  revert evs ys; induction l as [|x l IH]; simpl; intros evs ys H.
  - inversion H; reflexivity.
  - destruct (f x) as [e1 [y|e]]; simpl in H; [|discriminate].
    destruct (Array_map f l) as [e2 [ys'|e]]; simpl in H; [|discriminate].
    inversion H; subst. simpl. f_equal. eapply IH; reflexivity.
Qed.

(** A throwing element makes [map] throw, at that element or before. *)
Lemma Array_map_throws {A B} (f : A -> M B) (pre post : list A) (x : A)
  (evs' : list Event) (e : JsError) :
  f x = (evs', Throw e) ->
  exists evs e', Array_map f (pre ++ x :: post) = (evs, Throw e').
Proof.
  intros Hx. rewrite Array_map_app.
  destruct (Array_map f pre) as [evs [ys|e0]]; simpl; [|eauto].
  rewrite Hx. simpl. eauto.
Qed.

(** ** The registry lookup *)

Lemma getProperty_None (properties : list (string * Lookup)) (key : jsstring) :
  getProperty properties key = None <->
  ~ In key (map (fun p => str (fst p)) properties).
Proof.
  induction properties as [|[name v] r IH]; simpl; [tauto|].
  destruct (jsstring_eqb key (str name)) eqn:E.
  - apply jsstring_eqb_eq in E. subst key.
    split; [discriminate | intros H; exfalso; apply H; left; reflexivity].
  - apply jsstring_eqb_neq in E. rewrite IH.
    split; [intros H [H'|H']; [congruence | tauto] | tauto].
Qed.

Lemma getProperty_not_Undefined (properties : list (string * Lookup))
  (key : jsstring) :
  ~ In Undefined (map snd properties) ->
  getProperty properties key <> Some Undefined.
Proof.
  induction properties as [|[name v] r IH]; simpl; [discriminate|].
  intros H. destruct (jsstring_eqb key (str name)); [|tauto].
  intros E; inversion E; tauto.
Qed.

(** The lookup misses exactly the names that are neither keys of [PIPES] nor
    names of properties of [Object.prototype]. *)
Lemma PIPES_get_Undefined (pipeName : jsstring) :
  PIPES_get pipeName = Undefined <->
  ~ In pipeName registryKeys /\ ~ In pipeName objectPrototypeNames.
Proof.
  unfold PIPES_get, registryKeys, objectPrototypeNames.
  rewrite <- !getProperty_None.
  pose proof (@getProperty_not_Undefined ownNames pipeName) as Hown.
  pose proof (@getProperty_not_Undefined inheritedNames pipeName) as Hinh.
  destruct (getProperty ownNames pipeName) as [v|].
  - split; [intros ->; exfalso; apply Hown; [simpl; intuition discriminate|];
            reflexivity | intros [H _]; discriminate].
  - destruct (getProperty inheritedNames pipeName) as [v|].
    + split; [intros ->; exfalso; apply Hinh; [simpl; intuition discriminate|];
              reflexivity | intros [_ H]; discriminate].
    + tauto.
Qed.

Section Parser.

Variable collator_compare : Comparator.

Lemma parsePipe_tokens (text : jsstring) :
  parsePipe collator_compare text =
  match PIPES_get (commandName text) with
  | Undefined => throw (Error (str "Unknown command: " ++ commandName text))
  | factory =>
      tell (FactoryCalled (commandName text) (commandArgs text)) ;;;
      callFactory collator_compare factory (commandArgs text)
  end.
Proof.
  unfold parsePipe, commandName, commandArgs.
  destruct (splitWhiteSpace (trim text)); cbv zeta;
    destruct (PIPES_get _); reflexivity.
Qed.

Lemma parsePipe_unknown (text : jsstring) :
  PIPES_get (commandName text) = Undefined ->
  parsePipe collator_compare text =
  ([], Throw (Error (str "Unknown command: " ++ commandName text))).
Proof. intros H. rewrite parsePipe_tokens, H. reflexivity. Qed.

Lemma parsePipeline_stages (text : jsstring) (check : bool) :
  parsePipeline collator_compare text check =
  match Array_map (parsePipe collator_compare) (stagesOf text) with
  | (evs, Throw e) => (evs, Failed e)
  | (evs, Normal pipes) =>
      if check then (evs, Parsed NOOP) else (evs, Parsed (pipeline pipes))
  end.
Proof.
  unfold parsePipeline, stagesOf, ensureError.
  destruct (split_cons 124%N text) as [p [ps E]]. rewrite E.
  destruct (Array_map _ _) as [evs [pipes|e]] eqn:Hm; [|reflexivity].
  apply Array_map_length in Hm. destruct pipes; [discriminate|].
  destruct check; reflexivity.
Qed.

(** X18: The test [pipes.length === 0] never holds: without the check flag a
    successful parse returns the closure [pipeline], never [NOOP]. *)
Lemma parsePipeline_NOOP_needs_check (text : jsstring) :
  snd (parsePipeline collator_compare text false) <> Parsed NOOP.
Proof.
  rewrite parsePipeline_stages.
  destruct (Array_map _ _) as [evs [pipes|e]]; simpl; discriminate.
Qed.

Lemma trimStart_whitespace (s : jsstring) :
  forallb isWhiteSpace s = true -> trimStart s = [].
Proof.
  induction s as [|c r IH]; simpl; [reflexivity|].
  destruct (isWhiteSpace c); simpl; [exact IH | discriminate].
Qed.

Lemma split_no_separator (sep : codeunit) (s : jsstring) :
  forallb (fun c => negb (codeunit_eqb c sep)) s = true -> split sep s = [s].
Proof.
  induction s as [|c r IH]; simpl; [reflexivity|].
  destruct (codeunit_eqb c sep); simpl; [discriminate|].
  intros H. rewrite (IH H). reflexivity.
Qed.

(** A text of white space only has one stage, the empty one, and its parse
    fails as the parse of the empty text does. *)
Lemma parsePipeline_whitespace (text : jsstring) (check : bool) :
  forallb isWhiteSpace text = true ->
  parsePipeline collator_compare text check = ([], Failed (Error (str "Unknown command: "))).
Proof.
  intros Hws. rewrite parsePipeline_stages. unfold stagesOf.
  rewrite split_no_separator.
  - cbn [map]. unfold trim. rewrite (trimStart_whitespace _ Hws). reflexivity.
  - rewrite forallb_forall in *. intros c Hc. specialize (Hws c Hc).
    unfold codeunit_eqb. destruct (N.eqb_spec c 124%N) as [->|]; [|reflexivity].
    discriminate.
Qed.

(** C2: parsing the empty text, or a text of white space only, with or
    without the check flag, does not return the identity pipeline: the text
    splits into one empty stage, whose command name, the empty string, is
    not in the registry, and the parse fails with the unknown-command error
    for the empty name. *)
Theorem parsePipeline_empty_text_fails (check : bool) :
  parsePipeline collator_compare (str "") check =
    ([], Failed (Error (str "Unknown command: ")))
  /\ parsePipeline collator_compare (str "   ") check =
    ([], Failed (Error (str "Unknown command: ")))
  /\ stagesOf (str "") = [str ""].
Proof.
  repeat split; try (apply parsePipeline_whitespace; reflexivity).
Qed.

(** C4: when a text parses, the parse with the check flag returns [NOOP], no
    error, never the closure over the stages, and [NOOP] returns any lines
    unchanged; when a text fails to parse, the parse with the check flag
    fails with the same error. *)
Theorem parsePipeline_check_mode (text : jsstring) :
  (forall pipe, snd (parsePipeline collator_compare text false) = Parsed pipe ->
     snd (parsePipeline collator_compare text true) = Parsed NOOP
     /\ (forall pipes, snd (parsePipeline collator_compare text true) <> Parsed (pipeline pipes))
     /\ (forall lines, callPipe NOOP lines = ([], Normal lines)))
  /\ (forall e, snd (parsePipeline collator_compare text false) = Failed e ->
        snd (parsePipeline collator_compare text true) = Failed e).
Proof.
  rewrite !parsePipeline_stages.
  destruct (Array_map _ _) as [evs [pipes|e]]; simpl; split.
  - intros _ _. repeat split; discriminate.
  - discriminate.
  - discriminate.
  - trivial.
Qed.

(** C10: the parse with the check flag fails exactly when the parse without
    it fails, and then with the same error. *)
Theorem parsePipeline_check_same_errors (text : jsstring) (e : JsError) :
  snd (parsePipeline collator_compare text true) = Failed e <->
  snd (parsePipeline collator_compare text false) = Failed e.
Proof.
  rewrite !parsePipeline_stages.
  destruct (Array_map _ _) as [evs [pipes|e']]; simpl;
    split; intros H; try discriminate; exact H.
Qed.

(** The two modes call the same factories in the same order. *)
Lemma parsePipeline_check_same_events (text : jsstring) :
  fst (parsePipeline collator_compare text true) = fst (parsePipeline collator_compare text false).
Proof.
  rewrite !parsePipeline_stages.
  destruct (Array_map _ _) as [evs [pipes|e']]; reflexivity.
Qed.

(** *** The first failing stage *)

Lemma callFactory_events (factory : Lookup) (args : list jsstring) :
  fst (callFactory collator_compare factory args) = [].
Proof.
  destruct factory as [[| |]|[]| |]; cbn [callFactory]; try reflexivity.
  - unfold sort. repeat (destruct (_ || _)); reflexivity.
  - unfold uniq. destruct (Nat.ltb _ _); reflexivity.
Qed.

(** A stage that parses has had its factory called, once. *)
Lemma parsePipe_events (stage : jsstring) (evs : list Event) (pipe : Stage) :
  parsePipe collator_compare stage = (evs, Normal pipe) ->
  evs = [factoryCall stage].
Proof.
  rewrite parsePipe_tokens. unfold factoryCall.
  destruct (PIPES_get (commandName stage)) as [f|f| |] eqn:E;
    try (cbn [tell bind];
         match goal with
         | |- context [callFactory ?c ?f ?a] =>
             pose proof (callFactory_events f a) as Hev;
             destruct (callFactory c f a) as [evs' r]
         end;
         simpl in Hev; subst evs'; intros H; inversion H; reflexivity).
  discriminate.
Qed.

(** When all stages parse, the factories called are those of the stages,
    in order. *)
Lemma Array_map_parsePipe_events (stages : list jsstring) (evs : list Event)
  (pipes : list Stage) :
  Array_map (parsePipe collator_compare) stages = (evs, Normal pipes) ->
  evs = map factoryCall stages.
Proof.
  revert evs pipes; induction stages as [|st r IH]; intros evs pipes;
    cbn [Array_map map].
  - intros H; inversion H; reflexivity.
  - destruct (parsePipe collator_compare st) as [e1 [p|e]] eqn:Hst;
      cbn [bind]; [|discriminate].
    destruct (Array_map (parsePipe collator_compare) r) as [e2 [ps|e]] eqn:Hr;
      cbn; [|discriminate].
    intros H; inversion H; subst.
    rewrite (parsePipe_events _ Hst), (IH _ _ eq_refl), app_nil_r.
    reflexivity.
Qed.

Lemma parsePipeline_first_throw (text : jsstring) (check : bool)
  (pre post : list jsstring) (stage : jsstring) (evs evs' : list Event)
  (pipes : list Stage) (e : JsError) :
  stagesOf text = pre ++ stage :: post ->
  Array_map (parsePipe collator_compare) pre = (evs, Normal pipes) ->
  parsePipe collator_compare stage = (evs', Throw e) ->
  parsePipeline collator_compare text check = (evs ++ evs', Failed e).
Proof.
  intros Hst Hpre Hstage. rewrite parsePipeline_stages, Hst.
  erewrite Array_map_first_throw; [reflexivity | exact Hpre | exact Hstage].
Qed.

Lemma parsePipeline_some_throw (text : jsstring) (check : bool)
  (pre post : list jsstring) (stage : jsstring) (evs' : list Event)
  (e : JsError) :
  stagesOf text = pre ++ stage :: post ->
  parsePipe collator_compare stage = (evs', Throw e) ->
  exists e', snd (parsePipeline collator_compare text check) = Failed e'.
Proof.
  intros Hst Hstage. rewrite parsePipeline_stages, Hst.
  destruct (Array_map_throws _ pre post _ Hstage) as [evs [e' Hm]].
  rewrite Hm.
  exists e'. reflexivity.
Qed.

Lemma commandName_empty : commandName [] = [].
Proof. reflexivity. Qed.

Lemma parsePipe_empty :
  parsePipe collator_compare [] = ([], Throw (Error (str "Unknown command: "))).
Proof. reflexivity. Qed.

(** C5, as amended: when the first stage that fails to parse has a command
    name that is neither a key of the registry nor the name of a property of
    [Object.prototype], the parse returns the unknown-command error for
    that name and no pipeline, and the factories called are those of the
    stages before it and no other. An empty stage is such a stage: a pipe at the
    start of the text, a pipe at the end and a doubled pipe give the
    unknown-command error for the empty name once the stages before them
    have parsed. *)
Theorem parsePipeline_unknown_command :
  (forall text check pre stage post evs pipes,
     stagesOf text = pre ++ stage :: post ->
     Array_map (parsePipe collator_compare) pre = (evs, Normal pipes) ->
     ~ In (commandName stage) registryKeys ->
     ~ In (commandName stage) objectPrototypeNames ->
     parsePipeline collator_compare text check =
       (map factoryCall pre,
        Failed (Error (str "Unknown command: " ++ commandName stage))))
  /\ (forall rest check,
        parsePipeline collator_compare (124%N :: rest) check =
          ([], Failed (Error (str "Unknown command: "))))
  /\ (forall text check evs pipes,
        Array_map (parsePipe collator_compare) (stagesOf text)
          = (evs, Normal pipes) ->
        parsePipeline collator_compare (text ++ [124%N]) check =
          (map factoryCall (stagesOf text),
           Failed (Error (str "Unknown command: "))))
  /\ (forall text rest check evs pipes,
        Array_map (parsePipe collator_compare) (stagesOf text)
          = (evs, Normal pipes) ->
        parsePipeline collator_compare (text ++ 124%N :: 124%N :: rest) check =
          (map factoryCall (stagesOf text),
           Failed (Error (str "Unknown command: ")))).
Proof.
  repeat apply conj.
  - intros text check pre stage post evs pipes Hst Hpre Hreg Hobj.
    rewrite <- (Array_map_parsePipe_events _ Hpre), <- (app_nil_r evs).
    eapply parsePipeline_first_throw; [exact Hst | exact Hpre |].
    apply parsePipe_unknown, PIPES_get_Undefined. tauto.
  - intros rest check.
    assert (Hst : stagesOf (124%N :: rest) = [] ++ [] :: stagesOf rest)
      by (change (124%N :: rest) with ([] ++ 124%N :: rest);
          rewrite stagesOf_app; reflexivity).
    change (@nil Event) with (@nil Event ++ []).
    eapply parsePipeline_first_throw;
      [exact Hst | reflexivity | apply parsePipe_empty].
  - intros text check evs pipes Hpre.
    assert (Hst : stagesOf (text ++ [124%N]) = stagesOf text ++ [] :: [])
      by (rewrite stagesOf_app; reflexivity).
    rewrite <- (Array_map_parsePipe_events _ Hpre), <- (app_nil_r evs).
    eapply parsePipeline_first_throw;
      [exact Hst | exact Hpre | apply parsePipe_empty].
  - intros text rest check evs pipes Hpre.
    assert (Hst : stagesOf (text ++ 124%N :: 124%N :: rest)
                  = stagesOf text ++ [] :: stagesOf rest)
      by (rewrite stagesOf_app;
          change (124%N :: rest) with ([] ++ 124%N :: rest);
          rewrite stagesOf_app; reflexivity).
    rewrite <- (Array_map_parsePipe_events _ Hpre), <- (app_nil_r evs).
    eapply parsePipeline_first_throw;
      [exact Hst | exact Hpre | apply parsePipe_empty].
Qed.

(** *** The arguments of [sort] *)

Lemma matchesTuple_spec (pattern : list string) (value : list jsstring) :
  matchesTuple pattern value = true <-> value = map str pattern.
Proof.
  revert value; induction pattern as [|p pattern IH]; intros [|v value];
    simpl; try (split; [discriminate | discriminate]); try tauto.
  rewrite andb_true_iff, jsstring_eqb_eq, IH.
  split; [intros [-> ->]; reflexivity | intros H; inversion H; auto].
Qed.

Lemma sort_accepts (args : list jsstring) :
  In args sortArguments ->
  exists comparator,
    sort collator_compare args = ([], Normal (SortLines comparator)).
Proof.
  unfold sortArguments. simpl.
  intros [<-|[<-|[<-|[<-|[]]]]]; eexists; reflexivity.
Qed.

Lemma sort_rejects (args : list jsstring) :
  ~ In args sortArguments ->
  sort collator_compare args = ([], Throw (Error (str "Invalid arguments"))).
Proof.
  unfold sortArguments, sort. simpl In. intros H.
  destruct (matchesTuple [] args) eqn:E1;
    [apply matchesTuple_spec in E1; simpl in E1; subst; tauto|].
  destruct (matchesTuple ["asc"%string] args) eqn:E2;
    [apply matchesTuple_spec in E2; simpl in E2; subst; tauto|].
  destruct (matchesTuple ["-d"%string] args) eqn:E3;
    [apply matchesTuple_spec in E3; simpl in E3; subst; tauto|].
  destruct (matchesTuple ["desc"%string] args) eqn:E4;
    [apply matchesTuple_spec in E4; simpl in E4; subst; tauto|].
  reflexivity.
Qed.

Lemma parsePipe_sort_rejects (stage : jsstring) :
  commandName stage = str "sort" ->
  ~ In (commandArgs stage) sortArguments ->
  parsePipe collator_compare stage =
    ([FactoryCalled (str "sort") (commandArgs stage)],
     Throw (Error (str "Invalid arguments"))).
Proof.
  intros Hname Hargs. rewrite parsePipe_tokens, Hname.
  change (PIPES_get (str "sort")) with (Own sort_factory).
  cbn [callFactory]. rewrite sort_rejects by exact Hargs. reflexivity.
Qed.

(** C6, as amended: the factory [sort] succeeds exactly on the argument
    lists [[]], [["asc"]], [["-d"]] and [["desc"]] and throws the
    invalid-arguments error on every other list; a text whose first failing
    stage is a [sort] with such other arguments parses to that error and no
    pipeline, as ["sort -x"] does; and any text with such a stage parses to
    an error and no pipeline. *)
Theorem sort_invalid_arguments :
  (forall args,
     (exists pipe, sort collator_compare args = ([], Normal pipe))
     <-> In args sortArguments)
  /\ (forall args, ~ In args sortArguments ->
        sort collator_compare args =
          ([], Throw (Error (str "Invalid arguments"))))
  /\ (forall text check pre stage post evs pipes,
        stagesOf text = pre ++ stage :: post ->
        Array_map (parsePipe collator_compare) pre = (evs, Normal pipes) ->
        commandName stage = str "sort" ->
        ~ In (commandArgs stage) sortArguments ->
        parsePipeline collator_compare text check =
          (evs ++ [FactoryCalled (str "sort") (commandArgs stage)],
           Failed (Error (str "Invalid arguments"))))
  /\ (forall text check pre stage post,
        stagesOf text = pre ++ stage :: post ->
        commandName stage = str "sort" ->
        ~ In (commandArgs stage) sortArguments ->
        exists e, snd (parsePipeline collator_compare text check) = Failed e)
  /\ (forall check,
        snd (parsePipeline collator_compare (str "sort -x") check) =
          Failed (Error (str "Invalid arguments"))).
Proof.
  repeat apply conj.
  - intros args. split.
    + intros [pipe Hok].
      destruct (in_dec (list_eq_dec (list_eq_dec N.eq_dec)) args sortArguments)
        as [Hin|Hout]; [exact Hin|].
      rewrite sort_rejects in Hok by exact Hout. discriminate.
    + intros Hin. destruct (sort_accepts Hin) as [c Hc]. eauto.
  - apply sort_rejects.
  - intros text check pre stage post evs pipes Hst Hpre Hname Hargs.
    eapply parsePipeline_first_throw; [exact Hst | exact Hpre |].
    apply parsePipe_sort_rejects; assumption.
  - intros text check pre stage post Hst Hname Hargs.
    eapply parsePipeline_some_throw; [exact Hst|].
    apply parsePipe_sort_rejects; assumption.
  - intros check. destruct check; reflexivity.
Qed.

(** *** Stages that are not functions *)

(** C9: the text ["constructor"] parses without error, because the lookup
    [PIPES["constructor"]] finds the function [Object] inherited from
    [Object.prototype]; the stage of the returned pipeline is the array that
    [Object(args)] returns, and calling the pipeline throws a [TypeError]
    on every input. *)
Theorem parsed_pipeline_throws :
  parsePipeline collator_compare (str "constructor") false =
    ([FactoryCalled (str "constructor") []], Parsed (pipeline [ArrayValue []]))
  /\ forall lines,
       callPipe (pipeline [ArrayValue []]) lines =
         ([], Throw (TypeError NotAFunction)).
Proof. split; reflexivity. Qed.

End Parser.

(** ** Running a pipeline *)

Lemma Array_reduce_fold {A B} (f : B -> A -> M B) (l : list A) (m : M B) :
  bind m (fun acc => Array_reduce f l acc) =
  fold_left (fun done x => bind done (fun acc => f acc x)) l m.
Proof.
  revert m; induction l as [|x l IH]; intros m; cbn [Array_reduce fold_left].
  - destruct m as [evs [a|e]]; cbn; [rewrite app_nil_r|]; reflexivity.
  - rewrite <- IH, bind_assoc. reflexivity.
Qed.

Lemma Array_reduce_pure {A B} (f : B -> A -> B) (l : list A) (init : B) :
  Array_reduce (fun acc x => ret (f acc x)) l init = ret (fold_left f l init).
Proof.
  revert init; induction l as [|x l IH]; intros init; cbn [Array_reduce fold_left].
  - reflexivity.
  - rewrite bind_ret_l. apply IH.
Qed.

Lemma callPipe_applyInOrder (pipes : list Stage) (lines : list jsstring) :
  callPipe (pipeline pipes) lines = applyInOrder pipes lines.
Proof.
  unfold applyInOrder, callPipe.
  rewrite <- (bind_ret_l lines (fun acc => Array_reduce _ pipes acc)).
  apply (Array_reduce_fold (fun inp pipe => callStage pipe inp)).
Qed.

(** The first stage reads the input; the last stage gives the output. *)
Lemma callPipe_first (first : Stage) (pipes : list Stage)
  (lines : list jsstring) :
  callPipe (pipeline (first :: pipes)) lines =
  bind (callStage first lines) (callPipe (pipeline pipes)).
Proof. reflexivity. Qed.

Lemma callPipe_last (pipes : list Stage) (last : Stage)
  (lines : list jsstring) :
  callPipe (pipeline (pipes ++ [last])) lines =
  bind (callPipe (pipeline pipes) lines) (callStage last).
Proof.
  rewrite !callPipe_applyInOrder. unfold applyInOrder.
  rewrite fold_left_app. reflexivity.
Qed.

Lemma uniq_fold (lines : list jsstring) :
  callStage UniqLines lines =
  ([], Normal (Object_keys (fold_left setTrue lines emptyObject))).
Proof.
  cbn [callStage]. rewrite Array_reduce_pure, bind_ret_l. reflexivity.
Qed.

(** The functions returned by [sort], [uniq] and [help] return on every
    input, and a pipeline of such functions returns too. *)
Lemma callStage_transform (pipe : Stage) (lines : list jsstring) :
  isTransform pipe = true ->
  exists evs out, callStage pipe lines = (evs, Normal out).
Proof.
  destruct pipe; try discriminate; intros _.
  - eexists _, _; reflexivity.
  - rewrite uniq_fold. eauto.
  - eexists _, _; reflexivity.
Qed.

Lemma callPipe_transforms (pipes : list Stage) (lines : list jsstring) :
  forallb isTransform pipes = true ->
  exists evs out, callPipe (pipeline pipes) lines = (evs, Normal out).
Proof.
  revert lines; induction pipes as [|p pipes IH]; intros lines; simpl.
  - intros _. eexists _, _; reflexivity.
  - rewrite andb_true_iff. intros [Hp Hps].
    destruct (callStage_transform p lines Hp) as [evs [out Hcall]].
    rewrite Hcall. cbn [bind].
    destruct (IH out Hps) as [evs' [out' Hrest]].
    change (Array_reduce (fun inp pipe => callStage pipe inp) pipes out)
      with (callPipe (pipeline pipes) out).
    rewrite Hrest. eauto.
Qed.

Section Execution.

Variable collator_compare : Comparator.

(** C8: for any arguments the factory [help] returns a stage that returns
    its input lines unchanged; showing the help document is an event beside
    the returned lines. *)
Theorem help_returns_lines (args lines : list jsstring) :
  exists pipe,
    callFactory collator_compare (PIPES_get (str "help")) args
      = ([], Normal pipe)
    /\ help args = ([], Normal pipe)
    /\ callStage pipe lines = ([HelpDocumentShown], Normal lines)
    /\ callPipe (pipeline [pipe]) lines = ([HelpDocumentShown], Normal lines).
Proof. exists HelpLines. repeat split; reflexivity. Qed.

(** C7: the pipeline returned by a successful parse without the check flag
    holds the stages of the text in order, at least one, and calling it on
    lines is the left-to-right application of those stages, each reading
    the output of the one before it. When the collator puts ["a"] before
    ["b"], the text ["uniq | sort"] parses to a pipeline that turns
    [["b"; "a"; "b"]] into [["a"; "b"]]. *)
Theorem pipeline_applies_stages_in_order :
  (forall text pipes lines,
     snd (parsePipeline collator_compare text false) = Parsed (pipeline pipes) ->
     snd (Array_map (parsePipe collator_compare) (stagesOf text))
       = Normal pipes
     /\ pipes <> []
     /\ callPipe (pipeline pipes) lines = applyInOrder pipes lines)
  /\ ((0 < collator_compare (str "b") (str "a"))%Z ->
      exists pipe,
        snd (parsePipeline collator_compare (str "uniq | sort") false)
          = Parsed pipe
        /\ callPipe pipe [str "b"; str "a"; str "b"]
           = ([], Normal [str "a"; str "b"])).
Proof.
  split.
  - intros text pipes lines. rewrite parsePipeline_stages.
    destruct (Array_map _ _) as [evs [pipes'|e]] eqn:Hm; simpl;
      [|discriminate].
    intros H; inversion H; subst pipes'. repeat split.
    + apply Array_map_length in Hm.
      destruct (stagesOf_cons text) as [st [sts Hst]]. rewrite Hst in Hm.
      destruct pipes; [discriminate | discriminate].
    + apply callPipe_applyInOrder.
  - intros Hab. eexists. split; [reflexivity|].
    cbn [callPipe Array_reduce]. rewrite uniq_fold. cbn [bind].
    cbv [callStage toSorted fold_right insertSorted ret bind].
    change (Object_keys
              (fold_left setTrue [str "b"; str "a"; str "b"] emptyObject))
      with [str "b"; str "a"].
    cbn [fold_right insertSorted].
    destruct (Z.leb_spec (collator_compare (str "b") (str "a")) 0);
      [lia | reflexivity].
Qed.

End Execution.

(** ** [toSorted] *)

Section Sorting.

Variable comparator : Comparator.

(** Of two elements, one does not compare greater than the other. *)
Hypothesis comparator_connex :
  forall a b, (0 < comparator a b)%Z -> (comparator b a <= 0)%Z.

Hypothesis comparator_trans :
  forall a b c,
    (comparator a b <= 0)%Z -> (comparator b c <= 0)%Z ->
    (comparator a c <= 0)%Z.

Lemma insertSorted_Permutation (x : jsstring) (l : list jsstring) :
  Permutation (x :: l) (insertSorted comparator x l).
Proof.
  induction l as [|y r IH]; simpl; [reflexivity|].
  destruct (comparator x y <=? 0)%Z; [reflexivity|].
  rewrite perm_swap. apply perm_skip, IH.
Qed.

Lemma toSorted_Permutation (lines : list jsstring) :
  Permutation lines (toSorted comparator lines).
Proof.
  induction lines as [|x r IH]; simpl; [reflexivity|].
  rewrite <- insertSorted_Permutation. apply perm_skip, IH.
Qed.

Lemma insertSorted_StronglySorted (x : jsstring) (l : list jsstring) :
  StronglySorted (before comparator) l ->
  StronglySorted (before comparator) (insertSorted comparator x l).
Proof using comparator_connex comparator_trans.
  induction 1 as [|y r Hr IH Hy]; simpl.
  - repeat constructor.
  - destruct (Z.leb_spec (comparator x y) 0) as [Hxy|Hxy].
    + constructor; [constructor; assumption|].
      constructor; [exact Hxy|].
      eapply Forall_impl; [|exact Hy].
      intros z Hz. exact (comparator_trans Hxy Hz).
    + constructor; [exact IH|].
      eapply Permutation_Forall; [apply insertSorted_Permutation|].
      constructor; [apply comparator_connex, Hxy | exact Hy].
Qed.

Lemma toSorted_StronglySorted (lines : list jsstring) :
  StronglySorted (before comparator) (toSorted comparator lines).
Proof using comparator_connex comparator_trans.
  induction lines as [|x r IH]; simpl; [constructor|].
  apply insertSorted_StronglySorted, IH.
Qed.

End Sorting.

Section SortStage.

Variable collator_compare : Comparator.

(** [collator.compare] is a consistent comparator: swapping the arguments
    swaps the sign, and "not after" is transitive. *)
Hypothesis collator_antisym :
  forall a b, Z.sgn (collator_compare b a) = (- Z.sgn (collator_compare a b))%Z.

Hypothesis collator_trans :
  forall a b c,
    (collator_compare a b <= 0)%Z -> (collator_compare b c <= 0)%Z ->
    (collator_compare a c <= 0)%Z.

Lemma collator_connex (a b : jsstring) :
  (0 < collator_compare a b)%Z -> (collator_compare b a <= 0)%Z.
Proof using collator_antisym.
  intros H. pose proof (collator_antisym a b). lia.
Qed.

Lemma reversed_connex (a b : jsstring) :
  (0 < - collator_compare a b)%Z -> (- collator_compare b a <= 0)%Z.
Proof using collator_antisym.
  intros H. pose proof (collator_antisym a b). lia.
Qed.

Lemma reversed_trans (a b c : jsstring) :
  (- collator_compare a b <= 0)%Z -> (- collator_compare b c <= 0)%Z ->
  (- collator_compare a c <= 0)%Z.
Proof using collator_antisym collator_trans.
  intros Hab Hbc.
  pose proof (collator_antisym a b). pose proof (collator_antisym b c).
  pose proof (collator_antisym a c).
  assert (collator_compare c b <= 0)%Z by lia.
  assert (collator_compare b a <= 0)%Z by lia.
  pose proof (collator_trans H2 H3). lia.
Qed.

(** C3: for each accepted argument list, the stage built by [sort] returns
    a permutation of its input; with no argument or ["asc"] no line compares
    greater than a line after it, and with ["-d"] or ["desc"] no line
    compares less than a line after it. *)
Theorem sort_sorted_permutation (args lines : list jsstring) :
  In args sortArguments ->
  exists pipe sorted,
    sort collator_compare args = ([], Normal pipe)
    /\ callStage pipe lines = ([], Normal sorted)
    /\ Permutation lines sorted
    /\ (args = [] \/ args = [str "asc"] ->
        StronglySorted (fun a b => (collator_compare a b <= 0)%Z) sorted)
    /\ (args = [str "-d"] \/ args = [str "desc"] ->
        StronglySorted (fun a b => (collator_compare a b >= 0)%Z) sorted).
Proof using collator_antisym collator_trans.
  assert (Hasc : StronglySorted (fun a b => (collator_compare a b <= 0)%Z)
                   (toSorted collator_compare lines))
    by (apply toSorted_StronglySorted;
        [apply collator_connex | apply collator_trans]).
  assert (Hdesc : StronglySorted (fun a b => (collator_compare a b >= 0)%Z)
                    (toSorted (fun a b => (- collator_compare a b)%Z) lines)).
  { pose proof (@toSorted_StronglySorted
                  (fun a b => (- collator_compare a b)%Z)
                  reversed_connex reversed_trans lines) as H.
    clear Hasc. unfold before in H.
    induction H as [|y r Hr IH Hy]; constructor; [exact IH|].
    eapply Forall_impl; [|exact Hy]. cbv beta. intros z Hz. lia. }
  unfold sortArguments. simpl In.
  intros [<-|[<-|[<-|[<-|[]]]]].
  - exists (SortLines collator_compare), (toSorted collator_compare lines).
    repeat split; [apply toSorted_Permutation | intros _; exact Hasc |].
    intros [H|H]; discriminate.
  - exists (SortLines collator_compare), (toSorted collator_compare lines).
    repeat split; [apply toSorted_Permutation | intros _; exact Hasc |].
    intros [H|H]; discriminate.
  - exists (SortLines (fun a b => (- collator_compare a b)%Z)),
      (toSorted (fun a b => (- collator_compare a b)%Z) lines).
    repeat split; [apply toSorted_Permutation | | intros _; exact Hdesc].
    intros [H|H]; discriminate.
  - exists (SortLines (fun a b => (- collator_compare a b)%Z)),
      (toSorted (fun a b => (- collator_compare a b)%Z) lines).
    repeat split; [apply toSorted_Permutation | | intros _; exact Hdesc].
    intros [H|H]; discriminate.
Qed.

End SortStage.

(** ** [uniq] *)

Lemma existsb_jsstring_In (x : jsstring) (l : list jsstring) :
  existsb (jsstring_eqb x) l = true <-> In x l.
Proof.
  rewrite existsb_exists. split.
  - intros [y [Hy E]]. apply jsstring_eqb_eq in E. subst; exact Hy.
  - intros H. exists x. split; [exact H | apply jsstring_eqb_refl].
Qed.

Lemma setTrue_In (acc : JsObject) (key x : jsstring) :
  In x (setTrue acc key) -> In x acc \/ x = key.
Proof.
  unfold setTrue. destruct (jsstring_eqb key (str "__proto__")); [tauto|].
  destruct (existsb (jsstring_eqb key) acc); [tauto|].
  rewrite in_app_iff. simpl. intuition.
Qed.

Lemma setTrue_NoDup (acc : JsObject) (key : jsstring) :
  NoDup acc -> NoDup (setTrue acc key).
Proof.
  intros Hacc. unfold setTrue.
  destruct (jsstring_eqb key (str "__proto__")); [exact Hacc|].
  destruct (existsb (jsstring_eqb key) acc) eqn:E; [exact Hacc|].
  assert (Hnot : ~ In key acc)
    by (rewrite <- existsb_jsstring_In; congruence).
  apply NoDup_rev in Hacc. rewrite <- (rev_involutive (acc ++ [key])).
  apply NoDup_rev. rewrite rev_app_distr. simpl.
  constructor; [rewrite <- in_rev; exact Hnot | exact Hacc].
Qed.

Lemma fold_setTrue_In (lines : list jsstring) (acc : JsObject) (x : jsstring) :
  In x (fold_left setTrue lines acc) -> In x acc \/ In x lines.
Proof.
  revert acc; induction lines as [|line r IH]; intros acc; simpl; [tauto|].
  intros H. destruct (IH _ H) as [H'|H']; [|tauto].
  destruct (setTrue_In _ _ _ H'); [tauto | subst; tauto].
Qed.

Lemma fold_setTrue_NoDup (lines : list jsstring) (acc : JsObject) :
  NoDup acc -> NoDup (fold_left setTrue lines acc).
Proof.
  revert acc; induction lines as [|line r IH]; intros acc H; simpl;
    [exact H | apply IH, setTrue_NoDup, H].
Qed.

Lemma filter_partition_Permutation {A} (f : A -> bool) (l : list A) :
  Permutation l (filter f l ++ filter (fun x => negb (f x)) l).
Proof.
  induction l as [|x l IH]; simpl; [reflexivity|].
  destruct (f x); simpl; [apply perm_skip, IH|].
  apply Permutation_cons_app, IH.
Qed.

Lemma insertIndex_Permutation (key : jsstring) (keys : list jsstring) :
  Permutation (key :: keys) (insertIndex key keys).
Proof.
  induction keys as [|k r IH]; simpl; [reflexivity|].
  destruct (indexValue key <=? indexValue k)%N; [reflexivity|].
  rewrite perm_swap. apply perm_skip, IH.
Qed.

(** [Object.keys] lists every own key once. *)
Lemma Object_keys_Permutation (o : JsObject) :
  Permutation o (Object_keys o).
Proof.
  unfold Object_keys.
  rewrite (filter_partition_Permutation isArrayIndex o) at 1.
  apply Permutation_app_tail.
  induction (filter isArrayIndex o) as [|k r IH]; simpl; [reflexivity|].
  rewrite <- insertIndex_Permutation. apply perm_skip, IH.
Qed.

(** On every input the output of [uniq] has no line twice and only lines
    of the input. *)
Lemma uniq_distinct_lines_of_input (lines : list jsstring) :
  exists out,
    callStage UniqLines lines = ([], Normal out)
    /\ NoDup out
    /\ (forall x, In x out -> In x lines).
Proof.
  eexists. split; [apply uniq_fold|]. split.
  - eapply Permutation_NoDup; [apply Object_keys_Permutation|].
    apply fold_setTrue_NoDup. constructor.
  - intros x Hx.
    apply (Permutation_in x (Permutation_sym (Object_keys_Permutation _))) in Hx.
    destruct (fold_setTrue_In _ _ _ Hx) as [[]|H]; exact H.
Qed.

Lemma fold_setTrue_firstOccurrences (lines : list jsstring)
  (seen : list jsstring) (acc : JsObject) :
  (forall x, In x seen <-> In x acc) ->
  ~ In (str "__proto__") lines ->
  fold_left setTrue lines acc = acc ++ firstOccurrencesFrom seen lines.
Proof.
  revert seen acc; induction lines as [|line r IH]; intros seen acc Hsame Hp;
    simpl; [rewrite app_nil_r; reflexivity|].
  simpl in Hp. unfold setTrue at 2.
  destruct (jsstring_eqb line (str "__proto__")) eqn:E;
    [apply jsstring_eqb_eq in E; tauto|].
  destruct (existsb (jsstring_eqb line) acc) eqn:Eacc.
  - assert (Eseen : existsb (jsstring_eqb line) seen = true)
      by (apply existsb_jsstring_In, Hsame, existsb_jsstring_In, Eacc).
    rewrite Eseen. apply IH; [exact Hsame | tauto].
  - assert (Eseen : existsb (jsstring_eqb line) seen = false).
    { destruct (existsb (jsstring_eqb line) seen) eqn:E'; [|reflexivity].
      apply existsb_jsstring_In, Hsame, existsb_jsstring_In in E'.
      congruence. }
    rewrite Eseen, (IH (line :: seen) (acc ++ [line])), <- app_assoc;
      [reflexivity | | tauto].
    intros x. rewrite in_app_iff. simpl. rewrite Hsame. tauto.
Qed.

Lemma firstOccurrencesFrom_In (seen lines : list jsstring) (x : jsstring) :
  In x (firstOccurrencesFrom seen lines) -> In x lines.
Proof.
  revert seen; induction lines as [|line r IH]; intros seen; simpl; [tauto|].
  destruct (existsb (jsstring_eqb line) seen); simpl; intros H.
  - right. exact (IH _ H).
  - destruct H as [H|H]; [tauto | right; exact (IH _ H)].
Qed.

Lemma Object_keys_no_index (o : JsObject) :
  (forall k, In k o -> isArrayIndex k = false) -> Object_keys o = o.
Proof.
  intros H. unfold Object_keys.
  assert (Hnone : filter isArrayIndex o = []).
  { induction o as [|k r IH]; simpl; [reflexivity|].
    rewrite (H k (or_introl eq_refl)). apply IH.
    intros k' Hk'. apply H. right; exact Hk'. }
  rewrite Hnone. simpl.
  induction o as [|k r IH]; simpl; [reflexivity|].
  rewrite (H k (or_introl eq_refl)). simpl. f_equal.
  apply IH; [intros k' Hk'; apply H; right; exact Hk'|].
  simpl in Hnone. rewrite (H k (or_introl eq_refl)) in Hnone. exact Hnone.
Qed.

(** X21: When no input line is an array index and none is [__proto__], the
    output of [uniq] is the input without its later repetitions. *)
Lemma uniq_firstOccurrences (lines : list jsstring) :
  (forall line, In line lines -> isArrayIndex line = false) ->
  ~ In (str "__proto__") lines ->
  callStage UniqLines lines = ([], Normal (firstOccurrences lines)).
Proof.
  intros Hidx Hproto. rewrite uniq_fold. unfold emptyObject, firstOccurrences.
  rewrite (@fold_setTrue_firstOccurrences lines [] []); [|tauto|exact Hproto].
  simpl. rewrite Object_keys_no_index; [reflexivity|].
  intros k Hk. apply Hidx. exact (firstOccurrencesFrom_In _ _ _ Hk).
Qed.

(** C1: on the lines [["2"; "1"]] the stage built by [uniq] returns
    [["1"; "2"]], not the lines in the order of their first occurrence:
    [Object.keys] lists the keys that are array indices first, in numeric
    order. On [["a"; "__proto__"]] it returns [["a"]] only: the assignment
    [acc["__proto__"] = true] creates no key. *)
Theorem uniq_moves_array_indices :
  uniq [] = ([], Normal UniqLines)
  /\ callStage UniqLines [str "2"; str "1"]
     = ([], Normal [str "1"; str "2"])
  /\ firstOccurrences [str "2"; str "1"] = [str "2"; str "1"]
  /\ callStage UniqLines [str "a"; str "__proto__"] = ([], Normal [str "a"])
  /\ firstOccurrences [str "a"; str "__proto__"] = [str "a"; str "__proto__"].
Proof. repeat split; reflexivity. Qed.

(** ** Claims that fail as they are stated *)

(** C5 as stated fails: in ["sort -x | frobnicate"] the stage
    ["frobnicate"] names no key of the registry, but the stage before it
    fails first and the parse returns its invalid-arguments error. *)
Lemma unknown_command_not_for_every_stage :
  ~ (forall collator_compare text check stage,
       In stage (stagesOf text) ->
       ~ In (commandName stage) registryKeys ->
       snd (parsePipeline collator_compare text check) =
         Failed (Error (str "Unknown command: " ++ commandName stage))).
Proof.
  intros H.
  specialize (H codeunitCompare (str "sort -x | frobnicate") false
                (str "frobnicate")).
  assert (Hin : In (str "frobnicate") (stagesOf (str "sort -x | frobnicate")))
    by (right; left; reflexivity).
  assert (Hkey : ~ In (commandName (str "frobnicate")) registryKeys)
    by (vm_compute; intuition discriminate).
  specialize (H Hin Hkey). vm_compute in H. discriminate H.
Qed.

(** C6 as stated fails: ["frobnicate | sort -x"] holds a [sort] stage with
    an argument that [sort] rejects, but the stage before it fails first
    and the parse returns its unknown-command error. *)
Lemma invalid_arguments_not_for_every_text :
  ~ (forall collator_compare text check stage,
       In stage (stagesOf text) ->
       commandName stage = str "sort" ->
       ~ In (commandArgs stage) sortArguments ->
       snd (parsePipeline collator_compare text check) =
         Failed (Error (str "Invalid arguments"))).
Proof.
  intros H.
  specialize (H codeunitCompare (str "frobnicate | sort -x") false
                (str "sort -x")).
  assert (Hin : In (str "sort -x") (stagesOf (str "frobnicate | sort -x")))
    by (right; left; reflexivity).
  assert (Hargs : ~ In (commandArgs (str "sort -x")) sortArguments)
    by (vm_compute; intuition discriminate).
  specialize (H Hin eq_refl Hargs). vm_compute in H. discriminate H.
Qed.

(** ** The development at a concrete comparator *)

Lemma codeunitCompare_antisym (a b : jsstring) :
  Z.sgn (codeunitCompare b a) = (- Z.sgn (codeunitCompare a b))%Z.
Proof.
  revert b; induction a as [|x a IH]; intros [|y b]; simpl; try reflexivity.
  destruct (N.ltb_spec x y), (N.ltb_spec y x); try lia; try reflexivity.
  apply IH.
Qed.

Lemma codeunitCompare_trans (a b c : jsstring) :
  (codeunitCompare a b <= 0)%Z -> (codeunitCompare b c <= 0)%Z ->
  (codeunitCompare a c <= 0)%Z.
Proof.
  revert b c; induction a as [|x a IH]; intros [|y b] [|z c]; simpl;
    try lia.
  destruct (N.ltb_spec x y), (N.ltb_spec y x), (N.ltb_spec y z),
    (N.ltb_spec z y), (N.ltb_spec x z), (N.ltb_spec z x); try lia.
  apply IH.
Qed.

Lemma sort_sorted_permutation_witness :
  exists pipe sorted,
    sort codeunitCompare [str "desc"] = ([], Normal pipe)
    /\ callStage pipe [str "b"; str "c"; str "a"] = ([], Normal sorted)
    /\ Permutation [str "b"; str "c"; str "a"] sorted
    /\ ([str "desc"] = [] \/ [str "desc"] = [str "asc"] ->
        StronglySorted (fun a b => (codeunitCompare a b <= 0)%Z) sorted)
    /\ ([str "desc"] = [str "-d"] \/ [str "desc"] = [str "desc"] ->
        StronglySorted (fun a b => (codeunitCompare a b >= 0)%Z) sorted).
Proof.
  apply (@sort_sorted_permutation codeunitCompare codeunitCompare_antisym
           codeunitCompare_trans [str "desc"] [str "b"; str "c"; str "a"]).
  simpl. tauto.
Defined.

Lemma parsePipeline_check_mode_witness :
  snd (parsePipeline codeunitCompare (str "sort desc | uniq") true)
    = Parsed NOOP
  /\ snd (parsePipeline codeunitCompare (str "sort -x") true)
     = Failed (Error (str "Invalid arguments")).
Proof.
  split.
  - eapply (proj1 (parsePipeline_check_mode codeunitCompare
                     (str "sort desc | uniq"))).
    reflexivity.
  - apply (proj2 (parsePipeline_check_mode codeunitCompare (str "sort -x"))).
    reflexivity.
Defined.

Lemma parsePipeline_unknown_command_witness :
  parsePipeline codeunitCompare (str "sort | frobnicate | uniq") false
    = ([FactoryCalled (str "sort") []],
       Failed (Error (str "Unknown command: frobnicate")))
  /\ parsePipeline codeunitCompare (str "sort |") false
     = ([FactoryCalled (str "sort") []],
        Failed (Error (str "Unknown command: ")))
  /\ parsePipeline codeunitCompare (str "sort || uniq") false
     = ([FactoryCalled (str "sort") []],
        Failed (Error (str "Unknown command: "))).
Proof.
  destruct (parsePipeline_unknown_command codeunitCompare)
    as [Hfirst [_ [Htrailing Hdoubled]]].
  split; [|split].
  - apply (Hfirst (str "sort | frobnicate | uniq") false [str "sort"]
             (str "frobnicate") [str "uniq"] [FactoryCalled (str "sort") []]
             [SortLines codeunitCompare]).
    + reflexivity.
    + reflexivity.
    + vm_compute. intuition discriminate.
    + vm_compute. intuition discriminate.
  - apply (Htrailing (str "sort ") false [FactoryCalled (str "sort") []]
             [SortLines codeunitCompare]).
    reflexivity.
  - apply (Hdoubled (str "sort ") (str " uniq") false
             [FactoryCalled (str "sort") []] [SortLines codeunitCompare]).
    reflexivity.
Defined.

Lemma sort_invalid_arguments_witness :
  sort codeunitCompare [str "-x"] = ([], Throw (Error (str "Invalid arguments")))
  /\ parsePipeline codeunitCompare (str "uniq | sort asc desc | help") false
     = ([FactoryCalled (str "uniq") [];
         FactoryCalled (str "sort") [str "asc"; str "desc"]],
        Failed (Error (str "Invalid arguments")))
  /\ exists e,
       snd (parsePipeline codeunitCompare (str "frobnicate | sort -x") true)
         = Failed e.
Proof.
  destruct (sort_invalid_arguments codeunitCompare)
    as [_ [Hrejects [Hfirst [Hany _]]]].
  split; [|split].
  - apply Hrejects. vm_compute. intuition discriminate.
  - apply (Hfirst (str "uniq | sort asc desc | help") false [str "uniq"]
             (str "sort asc desc") [str "help"] [FactoryCalled (str "uniq") []]
             [UniqLines]).
    + reflexivity.
    + reflexivity.
    + reflexivity.
    + vm_compute. intuition discriminate.
  - apply (Hany (str "frobnicate | sort -x") true [str "frobnicate"]
             (str "sort -x") []).
    + reflexivity.
    + reflexivity.
    + vm_compute. intuition discriminate.
Defined.

Lemma pipeline_applies_stages_in_order_witness :
  callPipe (pipeline [SortLines (fun a b => (- codeunitCompare a b)%Z);
                      UniqLines]) [str "a"; str "b"; str "a"]
    = applyInOrder [SortLines (fun a b => (- codeunitCompare a b)%Z);
                    UniqLines] [str "a"; str "b"; str "a"]
  /\ exists pipe,
       snd (parsePipeline codeunitCompare (str "uniq | sort") false)
         = Parsed pipe
       /\ callPipe pipe [str "b"; str "a"; str "b"]
          = ([], Normal [str "a"; str "b"]).
Proof.
  destruct (pipeline_applies_stages_in_order codeunitCompare)
    as [Hfold Hexample].
  split.
  - apply (Hfold (str "sort desc | uniq")). reflexivity.
  - apply Hexample. reflexivity.
Defined.

Lemma parsePipeline_check_same_errors_witness :
  snd (parsePipeline codeunitCompare (str "uniq extra") true)
    = Failed (Error (str "Invalid arguments"))
  /\ snd (parsePipeline codeunitCompare (str "frobnicate") false)
     = Failed (Error (str "Unknown command: frobnicate")).
Proof.
  split.
  - apply (proj2 (parsePipeline_check_same_errors codeunitCompare
                    (str "uniq extra") (Error (str "Invalid arguments")))).
    reflexivity.
  - apply (proj1 (parsePipeline_check_same_errors codeunitCompare
                    (str "frobnicate")
                    (Error (str "Unknown command: frobnicate")))).
    reflexivity.
Defined.

(** ** Splitting and joining *)

Lemma join_cons (sep x : jsstring) (piece : jsstring) (pieces : list jsstring) :
  join sep (x :: piece :: pieces) = x ++ sep ++ join sep (piece :: pieces).
Proof. reflexivity. Qed.

(** Joining the pieces of a text with the separator gives the text back:
    [s.split(sep).join(sep)] is [s]. *)
Lemma join_split (sep : codeunit) (s : jsstring) :
  join [sep] (split sep s) = s.
Proof.
  induction s as [|c r IH]; [reflexivity|].
  cbn [split]. destruct (N.eqb_spec c sep) as [->|Hne]; unfold codeunit_eqb.
  - rewrite N.eqb_refl.
    destruct (split_cons sep r) as [p [ps E]]. rewrite E in *.
    rewrite join_cons, IH. reflexivity.
  - destruct (N.eqb_spec c sep) as [|_]; [contradiction|].
    destruct (split_cons sep r) as [p [ps E]]. rewrite E in *.
    destruct ps as [|q qs].
    + simpl in *. rewrite IH. reflexivity.
    + change (join [sep] ((c :: p) :: q :: qs))
        with (c :: join [sep] (p :: q :: qs)).
      rewrite IH. reflexivity.
Qed.

Lemma split_length (sep : codeunit) (s : jsstring) :
  List.length (split sep s) = S (countCodeunit sep s).
Proof.
  unfold countCodeunit. induction s as [|c r IH]; [reflexivity|].
  cbn [split filter]. destruct (codeunit_eqb c sep); simpl.
  - rewrite IH. reflexivity.
  - destruct (split_cons sep r) as [p [ps E]]. rewrite E in *. exact IH.
Qed.

Lemma split_pieces (sep : codeunit) (s : jsstring) :
  Forall (fun piece => ~ In sep piece) (split sep s).
Proof.
  induction s as [|c r IH]; cbn [split].
  - repeat constructor. intros [].
  - destruct (N.eqb_spec c sep) as [->|Hne]; unfold codeunit_eqb.
    + rewrite N.eqb_refl. constructor; [intros []|exact IH].
    + destruct (N.eqb_spec c sep) as [|_]; [contradiction|].
      destruct (split_cons sep r) as [p [ps E]]. rewrite E in *.
      inversion IH as [|? ? Hp Hps]; subst.
      constructor; [|exact Hps]. simpl. intros [H|H]; [congruence|tauto].
Qed.

(** X1: With an editor [getTextLines] returns at least one line, no line holds
    a line feed, there is one line more than there are line feeds in the
    text read, and joining the lines with line feeds gives the text read;
    the range returned spans whole lines, from column 0 of the line where
    the selection starts to the end of the line where it ends. *)
Theorem getTextLines_editor (editor : TextEditor) :
  let lines := fst (getTextLines (Some editor)) in
  let range := snd (getTextLines (Some editor)) in
  let text := getText (document editor) range in
  lines <> []
  /\ Forall (fun l => ~ In 10%N l) lines
  /\ List.length lines = S (countCodeunit 10%N text)
  /\ join [10%N] lines = text
  /\ start range = mkPosition (line (start (selection editor))) 0
  /\ line (end_ range) = line (end_ (selection editor))
  /\ character (end_ range) =
     List.length (lineAt_text (document editor) (line (end_ (selection editor)))).
Proof.
  cbn. repeat split.
  - destruct (split_cons 10%N (getText (document editor)
      (newRange (line (start (selection editor))) 0
         (line (end_ (selection editor)))
         (List.length (lineAt_text (document editor)
            (line (end_ (selection editor)))))))) as [p [ps E]].
    rewrite E. discriminate.
  - apply split_pieces.
  - apply split_length.
  - apply join_split.
Qed.

(** ** The command handler *)

Section Handler.

Variable collator_compare : Comparator.

Lemma executeCommand_text (c : codeunit) (r : jsstring)
  (activeTextEditor : option TextEditor) :
  executeCommand collator_compare (Some (c :: r)) activeTextEditor =
  match parsePipeline collator_compare (c :: r) false with
  | (evs, Failed error) => (evs, ErrorShown error)
  | (evs, Parsed pipe) =>
      match callPipe pipe (fst (getTextLines activeTextEditor)) with
      | (evs', Throw e) => (evs ++ evs', Rejected e)
      | (evs', Normal out) =>
          match activeTextEditor with
          | Some _ =>
              (evs ++ evs',
               Replaced (snd (getTextLines activeTextEditor)) (join [10%N] out))
          | None => (evs ++ evs', NothingReplaced)
          end
      end
  end.
Proof.
  unfold executeCommand.
  destruct (parsePipeline collator_compare (c :: r) false) as [evs [pipe|e]];
    [|reflexivity].
  destruct (getTextLines activeTextEditor) as [lines sel]. reflexivity.
Qed.

(** X2: The handler replaces text only when the input box gave a text that is
    not empty, the text parsed, there is an active editor and the pipeline
    returned on the lines read from it; the text written is then the output
    lines joined with line feeds, over the range [getTextLines] returned. *)
Theorem executeCommand_Replaced (cmdText : option jsstring)
  (activeTextEditor : option TextEditor) (evs : list Event)
  (range : Range) (written : jsstring) :
  executeCommand collator_compare cmdText activeTextEditor
    = (evs, Replaced range written) ->
  exists text editor pipe out evs1 evs2,
    cmdText = Some text /\ text <> []
    /\ activeTextEditor = Some editor
    /\ parsePipeline collator_compare text false = (evs1, Parsed pipe)
    /\ callPipe pipe (fst (getTextLines (Some editor))) = (evs2, Normal out)
    /\ evs = evs1 ++ evs2
    /\ range = snd (getTextLines (Some editor))
    /\ written = join [10%N] out.
Proof.
  destruct cmdText as [[|c r]|]; try discriminate.
  rewrite executeCommand_text.
  destruct (parsePipeline collator_compare (c :: r) false)
    as [evs1 [pipe|e]] eqn:Hparse; [|discriminate].
  destruct (callPipe pipe (fst (getTextLines activeTextEditor)))
    as [evs2 [out|e]] eqn:Hcall; [|discriminate].
  destruct activeTextEditor as [editor|]; [|discriminate].
  intros H; inversion H; subst.
  exists (c :: r), editor, pipe, out, evs1, evs2.
  repeat split; try assumption; discriminate.
Qed.

(** X3: For a text that is not empty, the warning of [validateInput] and the
    error shown by the handler are the same error, and the one is there
    exactly when the other is. For the empty text they differ:
    [validateInput] warns about the unknown command with the empty name,
    and the handler returns at once, as it does when the input box was
    dismissed. *)
Theorem validateInput_executeCommand (activeTextEditor : option TextEditor) :
  (forall text e, text <> [] ->
     (snd (validateInput collator_compare text) = Some e <->
      snd (executeCommand collator_compare (Some text) activeTextEditor)
        = ErrorShown e))
  /\ validateInput collator_compare []
     = ([], Some (Error (str "Unknown command: ")))
  /\ executeCommand collator_compare (Some []) activeTextEditor
     = ([], Dismissed)
  /\ executeCommand collator_compare None activeTextEditor = ([], Dismissed).
Proof.
  repeat split; try reflexivity.
  - destruct text as [|c r]; [contradiction|].
    rewrite executeCommand_text. unfold validateInput.
    rewrite !parsePipeline_stages.
    destruct (Array_map _ _) as [evs [pipes|e']]; simpl; [discriminate|].
    intros E; inversion E; reflexivity.
  - destruct text as [|c r]; [contradiction|].
    rewrite executeCommand_text. unfold validateInput.
    rewrite !parsePipeline_stages.
    destruct (Array_map _ _) as [evs [pipes|e']]; cbn [snd].
    + destruct (callPipe (pipeline pipes) _) as [evs' [out|e']];
        [destruct activeTextEditor|]; discriminate.
    + intros E; inversion E; reflexivity.
Qed.

(** X4: When the pipeline returns the lines it was given, the handler writes
    back exactly the text it read from the document. *)
Theorem executeCommand_unchanged_lines (text : jsstring) (editor : TextEditor)
  (pipe : Pipe) (evs1 evs2 : list Event) :
  text <> [] ->
  parsePipeline collator_compare text false = (evs1, Parsed pipe) ->
  callPipe pipe (fst (getTextLines (Some editor)))
    = (evs2, Normal (fst (getTextLines (Some editor)))) ->
  executeCommand collator_compare (Some text) (Some editor)
    = (evs1 ++ evs2,
       Replaced (snd (getTextLines (Some editor)))
         (getText (document editor) (snd (getTextLines (Some editor))))).
Proof.
  intros Hne Hparse Hcall. destruct text as [|c r]; [contradiction|].
  rewrite executeCommand_text, Hparse, Hcall.
  cbn [getTextLines fst snd]. rewrite join_split. reflexivity.
Qed.

End Handler.

(** ** More on [uniq] *)

Lemma setTrue_proto (acc : JsObject) : setTrue acc (str "__proto__") = acc.
Proof. reflexivity. Qed.

Lemma fold_setTrue_withoutProto (lines : list jsstring) (acc : JsObject) :
  fold_left setTrue lines acc = fold_left setTrue (withoutProto lines) acc.
Proof.
  revert acc; induction lines as [|l r IH]; intros acc; [reflexivity|].
  unfold withoutProto in *. cbn [filter fold_left].
  destruct (jsstring_eqb l (str "__proto__")) eqn:E; cbn [negb].
  - apply jsstring_eqb_eq in E. subst l. rewrite setTrue_proto. apply IH.
  - cbn [fold_left]. apply IH.
Qed.

Lemma withoutProto_In (lines : list jsstring) (x : jsstring) :
  In x (withoutProto lines) <-> In x lines /\ x <> str "__proto__".
Proof.
  unfold withoutProto. rewrite filter_In, negb_true_iff, jsstring_eqb_neq.
  reflexivity.
Qed.

Lemma firstOccurrencesFrom_complete (seen lines : list jsstring)
  (x : jsstring) :
  In x lines -> In x seen \/ In x (firstOccurrencesFrom seen lines).
Proof.
  revert seen; induction lines as [|l r IH]; intros seen; [intros []|].
  cbn [firstOccurrencesFrom In].
  destruct (existsb (jsstring_eqb l) seen) eqn:E.
  - intros [<-|H]; [left; apply existsb_jsstring_In, E | apply IH, H].
  - intros [<-|H]; [right; left; reflexivity|].
    destruct (IH (l :: seen) H) as [[<-|H']|H'];
      [right; left; reflexivity | left; exact H' | right; right; exact H'].
Qed.

Lemma firstOccurrencesFrom_unseen (seen lines : list jsstring) (x : jsstring) :
  In x (firstOccurrencesFrom seen lines) -> ~ In x seen.
Proof.
  revert seen; induction lines as [|l r IH]; intros seen; [intros []|].
  cbn [firstOccurrencesFrom].
  destruct (existsb (jsstring_eqb l) seen) eqn:E; [apply IH|].
  intros [<-|H].
  - rewrite <- existsb_jsstring_In. congruence.
  - intros Hs. apply (IH _ H). right; exact Hs.
Qed.

Lemma firstOccurrencesFrom_NoDup (seen lines : list jsstring) :
  NoDup (firstOccurrencesFrom seen lines).
Proof.
  revert seen; induction lines as [|l r IH]; intros seen; [constructor|].
  cbn [firstOccurrencesFrom].
  destruct (existsb (jsstring_eqb l) seen); [apply IH|].
  constructor; [|apply IH].
  intros H. apply (firstOccurrencesFrom_unseen _ _ _ H). left; reflexivity.
Qed.

Lemma firstOccurrencesFrom_id (seen lines : list jsstring) :
  NoDup lines -> (forall x, In x lines -> ~ In x seen) ->
  firstOccurrencesFrom seen lines = lines.
Proof.
  revert seen; induction lines as [|l r IH]; intros seen Hnd Hs;
    [reflexivity|].
  cbn [firstOccurrencesFrom]. inversion Hnd as [|? ? Hl Hr]; subst.
  destruct (existsb (jsstring_eqb l) seen) eqn:E.
  - apply existsb_jsstring_In in E. exfalso. apply (Hs l); [left|]; auto.
  - f_equal. apply IH; [exact Hr|].
    intros x Hx [<-|H]; [exact (Hl Hx) | exact (Hs x (or_intror Hx) H)].
Qed.

(** The output of [uniq] is the list of own keys, in [Object.keys] order, of
    the object that received the lines other than [__proto__], each at its
    first occurrence. *)
Lemma uniq_Object_keys (lines : list jsstring) :
  callStage UniqLines lines =
  ([], Normal (Object_keys (firstOccurrences (withoutProto lines)))).
Proof.
  rewrite uniq_fold, fold_setTrue_withoutProto. unfold emptyObject.
  rewrite (@fold_setTrue_firstOccurrences (withoutProto lines) [] []);
    [reflexivity | tauto |].
  rewrite withoutProto_In. tauto.
Qed.

(** X5: [uniq] returns, once each, exactly the lines of its input other than
    [__proto__]. *)
Theorem uniq_lines (lines : list jsstring) :
  exists out,
    callStage UniqLines lines = ([], Normal out)
    /\ NoDup out
    /\ (forall x, In x out <-> In x lines /\ x <> str "__proto__").
Proof.
  eexists. split; [apply uniq_Object_keys|]. split.
  - eapply Permutation_NoDup; [apply Object_keys_Permutation|].
    apply firstOccurrencesFrom_NoDup.
  - intros x. rewrite <- withoutProto_In. split.
    + intros H.
      apply (Permutation_in x (Permutation_sym (Object_keys_Permutation _))) in H.
      exact (firstOccurrencesFrom_In _ _ _ H).
    + intros H. apply (Permutation_in x (Object_keys_Permutation _)).
      destruct (firstOccurrencesFrom_complete [] _ _ H) as [[]|H']. exact H'.
Qed.

Lemma insertIndex_sorted (key : jsstring) (keys : list jsstring) :
  StronglySorted (fun a b => (indexValue a <= indexValue b)%N) keys ->
  StronglySorted (fun a b => (indexValue a <= indexValue b)%N)
    (insertIndex key keys).
Proof.
  induction 1 as [|k r Hr IH Hk]; cbn [insertIndex].
  - repeat constructor.
  - destruct (N.leb_spec (indexValue key) (indexValue k)) as [Hle|Hgt].
    + constructor; [constructor; assumption|].
      constructor; [exact Hle|].
      eapply Forall_impl; [|exact Hk]. cbv beta. intros z Hz. lia.
    + constructor; [exact IH|].
      eapply Permutation_Forall; [apply insertIndex_Permutation|].
      constructor; [lia | exact Hk].
Qed.

Lemma fold_insertIndex_sorted (keys : list jsstring) :
  StronglySorted (fun a b => (indexValue a <= indexValue b)%N)
    (fold_right insertIndex [] keys).
Proof.
  induction keys as [|k r IH]; cbn [fold_right]; [constructor|].
  apply insertIndex_sorted, IH.
Qed.

Lemma fold_insertIndex_id (keys : list jsstring) :
  StronglySorted (fun a b => (indexValue a <= indexValue b)%N) keys ->
  fold_right insertIndex [] keys = keys.
Proof.
  induction 1 as [|k r Hr IH Hk]; cbn [fold_right]; [reflexivity|].
  rewrite IH. destruct r as [|k' r']; [reflexivity|].
  cbn [insertIndex]. inversion Hk as [|? ? Hle _]; subst.
  destruct (N.leb_spec (indexValue k) (indexValue k')); [reflexivity | lia].
Qed.

Lemma filter_all {A} (f : A -> bool) (l : list A) :
  Forall (fun x => f x = true) l -> filter f l = l.
Proof.
  induction 1 as [|x r Hx _ IH]; cbn [filter]; [reflexivity|].
  rewrite Hx, IH. reflexivity.
Qed.

Lemma filter_none {A} (f : A -> bool) (l : list A) :
  Forall (fun x => f x = false) l -> filter f l = [].
Proof.
  induction 1 as [|x r Hx _ IH]; cbn [filter]; [reflexivity|].
  rewrite Hx, IH. reflexivity.
Qed.

Lemma filter_Forall {A} (f : A -> bool) (l : list A) :
  Forall (fun x => f x = true) (filter f l).
Proof. apply Forall_forall. intros x Hx. apply filter_In in Hx. tauto. Qed.

Lemma Object_keys_indices (o : JsObject) :
  Forall (fun k => isArrayIndex k = true)
    (fold_right insertIndex [] (filter isArrayIndex o)).
Proof.
  eapply Permutation_Forall; [|apply (filter_Forall isArrayIndex o)].
  induction (filter isArrayIndex o) as [|k r IH]; cbn [fold_right];
    [reflexivity|].
  rewrite <- insertIndex_Permutation. apply perm_skip, IH.
Qed.

Lemma Object_keys_ordered (indices others : list jsstring) :
  Forall (fun k => isArrayIndex k = true) indices ->
  Forall (fun k => negb (isArrayIndex k) = true) others ->
  StronglySorted (fun a b => (indexValue a <= indexValue b)%N) indices ->
  Object_keys (indices ++ others) = indices ++ others.
Proof.
  intros Hi Ho Hs. unfold Object_keys. rewrite !filter_app.
  rewrite (filter_all isArrayIndex Hi).
  rewrite (filter_all (fun k => negb (isArrayIndex k)) Ho).
  assert (Ho' : filter isArrayIndex others = []).
  { apply filter_none. eapply Forall_impl; [|exact Ho]. cbv beta. intros k.
    destruct (isArrayIndex k); [discriminate | reflexivity]. }
  assert (Hi' : filter (fun k => negb (isArrayIndex k)) indices = []).
  { apply filter_none. eapply Forall_impl; [|exact Hi]. cbv beta.
    intros k Hk. rewrite Hk. reflexivity. }
  rewrite Ho', Hi', app_nil_r. cbn [app].
  rewrite (fold_insertIndex_id Hs). reflexivity.
Qed.

(** Listing the keys of an object whose keys were created in [Object.keys]
    order changes nothing. *)
Lemma Object_keys_idempotent (o : JsObject) :
  Object_keys (Object_keys o) = Object_keys o.
Proof.
  unfold Object_keys at 2 3. apply Object_keys_ordered.
  - apply Object_keys_indices.
  - apply filter_Forall.
  - apply fold_insertIndex_sorted.
Qed.

(** X7: [uniq] twice is [uniq] once: the pipeline of two [uniq] stages returns
    what one [uniq] stage returns. *)
Theorem uniq_uniq (lines : list jsstring) :
  callPipe (pipeline [UniqLines; UniqLines]) lines =
  callPipe (pipeline [UniqLines]) lines.
Proof.
  cbn [callPipe Array_reduce]. rewrite (uniq_Object_keys lines).
  cbn [bind]. rewrite uniq_Object_keys.
  set (o := firstOccurrences (withoutProto lines)).
  assert (Hnd : NoDup (Object_keys o))
    by (eapply Permutation_NoDup; [apply Object_keys_Permutation|];
        apply firstOccurrencesFrom_NoDup).
  assert (Hproto : withoutProto (Object_keys o) = Object_keys o).
  { apply filter_all, Forall_forall. intros x Hx.
    apply (Permutation_in x (Permutation_sym (Object_keys_Permutation _))) in Hx.
    apply firstOccurrencesFrom_In in Hx. apply withoutProto_In in Hx.
    apply negb_true_iff, jsstring_eqb_neq. tauto. }
  rewrite Hproto. unfold firstOccurrences at 1.
  rewrite (@firstOccurrencesFrom_id [] (Object_keys o)); [|exact Hnd|auto].
  rewrite Object_keys_idempotent. reflexivity.
Qed.

(** ** A sort after a sort *)

Section SortTwice.

Variables first second : Comparator.

Hypothesis second_antisym :
  forall a b, Z.sgn (second b a) = (- Z.sgn (second a b))%Z.

Hypothesis second_trans :
  forall a b c,
    (second a b <= 0)%Z -> (second b c <= 0)%Z -> (second a c <= 0)%Z.

(** What [first] orders strictly, [second] does not hold equal. *)
Hypothesis first_strict :
  forall a b, (0 < first a b)%Z -> second a b <> 0%Z.

Lemma insertSorted_commute (x y : jsstring) (sorted : list jsstring) :
  second x y <> 0%Z ->
  insertSorted second x (insertSorted second y sorted) =
  insertSorted second y (insertSorted second x sorted).
Proof using second_antisym second_trans.
  intros Hxy. pose proof (second_antisym x y) as Axy.
  induction sorted as [|z r IH]; cbn [insertSorted].
  - repeat (match goal with
            | |- context [(?a <=? 0)%Z] => destruct (Z.leb_spec a 0)
            end; cbn [insertSorted]);
      first [reflexivity | lia].
  - pose proof (second_antisym x z) as Axz.
    pose proof (second_antisym y z) as Ayz.
    pose proof (@second_trans x y z) as Txyz.
    pose proof (@second_trans y x z) as Tyxz.
    repeat (match goal with
            | |- context [(?a <=? 0)%Z] => destruct (Z.leb_spec a 0)
            end; cbn [insertSorted]);
      first [reflexivity | lia | rewrite IH; reflexivity].
Qed.

Lemma toSorted_insertSorted (x : jsstring) (l : list jsstring) :
  toSorted second (insertSorted first x l) =
  insertSorted second x (toSorted second l).
Proof using second_antisym second_trans first_strict.
  induction l as [|y r IH]; [reflexivity|].
  cbn [insertSorted]. destruct (Z.leb_spec (first x y) 0) as [H|H].
  - reflexivity.
  - change (toSorted second (y :: insertSorted first x r))
      with (insertSorted second y (toSorted second (insertSorted first x r))).
    rewrite IH. symmetry. apply insertSorted_commute, first_strict, H.
Qed.

(** Sorting with [second] what was sorted with [first] gives what sorting
    with [second] alone gives. *)
Lemma toSorted_toSorted (lines : list jsstring) :
  toSorted second (toSorted first lines) = toSorted second lines.
Proof using second_antisym second_trans first_strict.
  induction lines as [|x r IH]; [reflexivity|].
  change (toSorted first (x :: r))
    with (insertSorted first x (toSorted first r)).
  rewrite toSorted_insertSorted, IH. reflexivity.
Qed.

End SortTwice.

Section SortAfterSort.

Variable collator_compare : Comparator.

Hypothesis collator_antisym :
  forall a b, Z.sgn (collator_compare b a) = (- Z.sgn (collator_compare a b))%Z.

Hypothesis collator_trans :
  forall a b c,
    (collator_compare a b <= 0)%Z -> (collator_compare b c <= 0)%Z ->
    (collator_compare a c <= 0)%Z.

(** X8: In a pipeline a [sort] stage makes a [sort] stage just before it
    redundant, whatever the directions of the two: [sort a | sort b] returns
    what [sort b] returns. With the same direction twice: sorting is
    idempotent. *)
Theorem sort_after_sort (args1 args2 lines : list jsstring) :
  In args1 sortArguments -> In args2 sortArguments ->
  exists pipe1 pipe2,
    sort collator_compare args1 = ([], Normal pipe1)
    /\ sort collator_compare args2 = ([], Normal pipe2)
    /\ callPipe (pipeline [pipe1; pipe2]) lines
       = callPipe (pipeline [pipe2]) lines.
Proof using collator_antisym collator_trans.
  assert (Hrev_antisym : forall a b,
            Z.sgn (- collator_compare b a) = (- Z.sgn (- collator_compare a b))%Z)
    by (intros a b; pose proof (collator_antisym a b); lia).
  pose proof (@reversed_trans collator_compare collator_antisym collator_trans)
    as Hrev_trans.
  unfold sortArguments. cbn [In].
  intros [<-|[<-|[<-|[<-|[]]]]] [<-|[<-|[<-|[<-|[]]]]];
    eexists _, _; (split; [reflexivity|]); (split; [reflexivity|]);
    cbn [callPipe Array_reduce callStage bind ret app]; do 2 f_equal;
    (apply toSorted_toSorted;
     [first [exact collator_antisym | exact Hrev_antisym]
     |first [exact collator_trans | exact Hrev_trans]
     |intros a b; pose proof (collator_antisym a b); lia]).
Qed.

End SortAfterSort.

(** ** More on parsing *)

Lemma getProperty_Some (properties : list (string * Lookup)) (key : jsstring)
  (v : Lookup) :
  getProperty properties key = Some v ->
  exists name, In (name, v) properties /\ key = str name.
Proof.
  induction properties as [|[name v'] r IH]; cbn [getProperty];
    [discriminate|].
  destruct (jsstring_eqb key (str name)) eqn:E.
  - apply jsstring_eqb_eq in E. intros H; inversion H; subst.
    exists name. split; [left; reflexivity | reflexivity].
  - intros H. destruct (IH H) as [n [Hin Hk]].
    exists n. split; [right; exact Hin | exact Hk].
Qed.

(** What the lookup finds tells the name that was looked up. *)
Lemma PIPES_get_cases (pipeName : jsstring) :
  (pipeName = str "help" /\ PIPES_get pipeName = Own help_factory)
  \/ (pipeName = str "sort" /\ PIPES_get pipeName = Own sort_factory)
  \/ (pipeName = str "uniq" /\ PIPES_get pipeName = Own uniq_factory)
  \/ (In pipeName objectPrototypeNames
      /\ ((exists f, PIPES_get pipeName = Inherited f)
          \/ PIPES_get pipeName = ObjectPrototype))
  \/ (~ In pipeName registryKeys /\ ~ In pipeName objectPrototypeNames
      /\ PIPES_get pipeName = Undefined).
Proof.
  destruct (PIPES_get pipeName) eqn:E.
  - unfold PIPES_get in E.
    destruct (getProperty ownNames pipeName) as [v|] eqn:Eo.
    + subst v. destruct (getProperty_Some _ _ Eo) as [n [Hin ->]].
      cbn in Hin.
      destruct Hin as [H|[H|[H|[]]]]; inversion H; subst; tauto.
    + destruct (getProperty inheritedNames pipeName) as [v|] eqn:Ei;
        [|discriminate].
      subst v. destruct (getProperty_Some _ _ Ei) as [n [Hin ->]].
      cbn in Hin. repeat (destruct Hin as [H|Hin]; [discriminate H|]).
      destruct Hin.
  - right; right; right; left. unfold PIPES_get in E.
    destruct (getProperty ownNames pipeName) as [v|] eqn:Eo.
    + subst v. destruct (getProperty_Some _ _ Eo) as [n [Hin ->]].
      cbn in Hin. repeat (destruct Hin as [H|Hin]; [discriminate H|]).
      destruct Hin.
    + destruct (getProperty inheritedNames pipeName) as [v|] eqn:Ei;
        [|discriminate].
      split; [|left; eauto].
      destruct (getProperty_Some _ _ Ei) as [n [Hin ->]].
      unfold objectPrototypeNames.
      exact (in_map (fun p => str (fst p)) _ _ Hin).
  - right; right; right; left. unfold PIPES_get in E.
    destruct (getProperty ownNames pipeName) as [v|] eqn:Eo.
    + subst v. destruct (getProperty_Some _ _ Eo) as [n [Hin ->]].
      cbn in Hin. repeat (destruct Hin as [H|Hin]; [discriminate H|]).
      destruct Hin.
    + destruct (getProperty inheritedNames pipeName) as [v|] eqn:Ei;
        [|discriminate].
      split; [|right; reflexivity].
      destruct (getProperty_Some _ _ Ei) as [n [Hin ->]].
      unfold objectPrototypeNames.
      exact (in_map (fun p => str (fst p)) _ _ Hin).
  - right; right; right; right. apply PIPES_get_Undefined in E. tauto.
Qed.

Section MoreParsing.

Variable collator_compare : Comparator.

Lemma uniq_accepts_iff (args : list jsstring) :
  uniq args = ([], Normal UniqLines) /\ args = []
  \/ uniq args = ([], Throw (Error (str "Invalid arguments"))) /\ args <> [].
Proof.
  destruct args as [|a r]; [left | right]; split; try reflexivity.
  discriminate.
Qed.

(** X9: Which stage substrings parse to a line transform: [help] with any
    arguments, [uniq] with none, [sort] with one of its four argument
    lists; nothing else does. *)
Theorem parsePipe_transform_iff (stage : jsstring) :
  (exists evs pipe,
     parsePipe collator_compare stage = (evs, Normal pipe)
     /\ isTransform pipe = true)
  <-> commandName stage = str "help"
      \/ (commandName stage = str "uniq" /\ commandArgs stage = [])
      \/ (commandName stage = str "sort"
          /\ In (commandArgs stage) sortArguments).
Proof.
  rewrite parsePipe_tokens. split.
  - intros [evs [pipe [Hparse Ht]]].
    destruct (PIPES_get_cases (commandName stage))
      as [[Hn E]|[[Hn E]|[[Hn E]|[[Hn [[f E]|E]]|[_ [_ E]]]]]];
      rewrite E in Hparse.
    + left; exact Hn.
    + right; right. split; [exact Hn|].
      destruct (in_dec (list_eq_dec (list_eq_dec N.eq_dec))
                  (commandArgs stage) sortArguments) as [Hin|Hout];
        [exact Hin|].
      cbn [callFactory] in Hparse.
      rewrite (sort_rejects collator_compare Hout) in Hparse. discriminate.
    + right; left. split; [exact Hn|].
      cbn [callFactory] in Hparse.
      destruct (uniq_accepts_iff (commandArgs stage)) as [[_ Ha]|[Hu _]];
        [exact Ha | rewrite Hu in Hparse; discriminate].
    + destruct f; cbn in Hparse; inversion Hparse; subst pipe;
        discriminate.
    + discriminate.
    + discriminate.
  - intros [Hn|[[Hn Ha]|[Hn Ha]]]; rewrite Hn.
    + eexists _, HelpLines. split; reflexivity.
    + change (PIPES_get (str "uniq")) with (Own uniq_factory).
      rewrite Ha. eexists _, UniqLines. split; reflexivity.
    + change (PIPES_get (str "sort")) with (Own sort_factory).
      destruct (sort_accepts collator_compare Ha) as [c Hc].
      cbn [callFactory]. rewrite Hc. eexists _, _. split; reflexivity.
Qed.

(** The errors a stage substring can fail with: the unknown-command error
    with its command name, when the name is no property of the registry
    object; the invalid-arguments error, from [sort] and from [uniq]; the
    engine's [TypeError], for names inherited from [Object.prototype]. *)
Lemma parsePipe_errors (stage : jsstring) (evs : list Event) (e : JsError) :
  parsePipe collator_compare stage = (evs, Throw e) ->
  (e = Error (str "Unknown command: " ++ commandName stage)
   /\ ~ In (commandName stage) registryKeys
   /\ ~ In (commandName stage) objectPrototypeNames)
  \/ (e = Error (str "Invalid arguments")
      /\ (commandName stage = str "sort"
          /\ ~ In (commandArgs stage) sortArguments
          \/ commandName stage = str "uniq" /\ commandArgs stage <> []))
  \/ ((exists cause, e = TypeError cause)
      /\ In (commandName stage) objectPrototypeNames).
Proof.
  rewrite parsePipe_tokens. intros Hparse.
  destruct (PIPES_get_cases (commandName stage))
    as [[Hn E]|[[Hn E]|[[Hn E]|[[Hn [[f E]|E]]|[Hr [Ho E]]]]]];
    rewrite E in Hparse.
  - discriminate.
  - right; left. cbn [callFactory] in Hparse.
    destruct (in_dec (list_eq_dec (list_eq_dec N.eq_dec))
                (commandArgs stage) sortArguments) as [Hin|Hout].
    + destruct (sort_accepts collator_compare Hin) as [c Hc].
      rewrite Hc in Hparse. discriminate.
    + rewrite (sort_rejects collator_compare Hout) in Hparse.
      inversion Hparse. tauto.
  - right; left. cbn [callFactory] in Hparse.
    destruct (uniq_accepts_iff (commandArgs stage)) as [[Hu _]|[Hu Ha]];
      rewrite Hu in Hparse; [discriminate|].
    inversion Hparse. tauto.
  - right; right. split; [|exact Hn].
    destruct f; cbn in Hparse; inversion Hparse; eauto.
  - right; right. split; [|exact Hn]. inversion Hparse; eauto.
  - left. inversion Hparse. tauto.
Qed.

Lemma Array_map_throw_inv {A B} (f : A -> M B) (l : list A)
  (evs : list Event) (e : JsError) :
  Array_map f l = (evs, Throw e) ->
  exists pre x post evs1 ys evs2,
    l = pre ++ x :: post
    /\ Array_map f pre = (evs1, Normal ys)
    /\ f x = (evs2, Throw e)
    /\ evs = evs1 ++ evs2.
Proof.
  revert evs; induction l as [|x r IH]; intros evs; cbn [Array_map];
    [discriminate|].
  destruct (f x) as [e1 [y|e']] eqn:Hx; cbn [bind].
  - destruct (Array_map f r) as [e2 [ys|e'']] eqn:Hr; cbn; [discriminate|].
    intros H; inversion H; subst.
    destruct (IH _ eq_refl) as [pre [x' [post [evs1 [ys [evs2 [-> [Hp [Hx' ->]]]]]]]]].
    exists (x :: pre), x', post, (e1 ++ evs1), (y :: ys), evs2.
    repeat split; [|exact Hx'|apply app_assoc].
    cbn [Array_map]. rewrite Hx, Hp. cbn. rewrite app_nil_r. reflexivity.
  - intros H; inversion H; subst.
    exists [], x, r, [], [], evs. repeat split. exact Hx.
Qed.

Lemma parsePipeline_Failed_inv (text : jsstring) (check : bool)
  (evs : list Event) (e : JsError) :
  parsePipeline collator_compare text check = (evs, Failed e) ->
  exists pre stage post pipes evs',
    stagesOf text = pre ++ stage :: post
    /\ Array_map (parsePipe collator_compare) pre
       = (map factoryCall pre, Normal pipes)
    /\ parsePipe collator_compare stage = (evs', Throw e)
    /\ evs = map factoryCall pre ++ evs'
    /\ ((e = Error (str "Unknown command: " ++ commandName stage)
         /\ ~ In (commandName stage) registryKeys
         /\ ~ In (commandName stage) objectPrototypeNames)
        \/ (e = Error (str "Invalid arguments")
            /\ (commandName stage = str "sort"
                /\ ~ In (commandArgs stage) sortArguments
                \/ commandName stage = str "uniq"
                   /\ commandArgs stage <> []))
        \/ ((exists cause, e = TypeError cause)
            /\ In (commandName stage) objectPrototypeNames)).
Proof.
  rewrite parsePipeline_stages.
  destruct (Array_map _ _) as [evs0 [pipes|e0]] eqn:Hm;
    [destruct check; discriminate|].
  intros H; inversion H; subst.
  destruct (Array_map_throw_inv _ _ Hm)
    as [pre [stage [post [evs1 [ys [evs2 [Hst [Hpre [Hstage ->]]]]]]]]].
  pose proof (Array_map_parsePipe_events _ _ Hpre) as ->.
  exists pre, stage, post, ys, evs2.
  repeat split; try assumption. exact (parsePipe_errors _ Hstage).
Qed.

(** X11: A pipe character composes: the text [t1 | t2] parses when [t1] and
    [t2] parse, to the stages of [t1] followed by those of [t2], after the
    factory calls of [t1] and then those of [t2]; it fails with the error
    of [t1] and nothing of [t2] looked at when [t1] fails, and with the
    error of [t2] otherwise. Calling the composed pipeline is calling the
    pipeline of [t1] and then the pipeline of [t2] on its output. *)
Theorem parsePipeline_pipe (t1 t2 : jsstring) :
  parsePipeline collator_compare (t1 ++ 124%N :: t2) false =
    match parsePipeline collator_compare t1 false with
    | (evs1, Failed e) => (evs1, Failed e)
    | (evs1, Parsed pipe1) =>
        match parsePipeline collator_compare t2 false with
        | (evs2, Failed e) => (evs1 ++ evs2, Failed e)
        | (evs2, Parsed pipe2) =>
            (evs1 ++ evs2, Parsed (pipeline (pipesOf pipe1 ++ pipesOf pipe2)))
        end
    end
  /\ forall pipes1 pipes2 lines,
       callPipe (pipeline (pipes1 ++ pipes2)) lines =
       bind (callPipe (pipeline pipes1) lines) (callPipe (pipeline pipes2)).
Proof.
  split.
  - rewrite !parsePipeline_stages, stagesOf_app, Array_map_app.
    destruct (Array_map _ (stagesOf t1)) as [evs1 [ps1|e1]]; cbn [bind];
      [|reflexivity].
    destruct (Array_map _ (stagesOf t2)) as [evs2 [ps2|e2]]; cbn;
      rewrite ?app_nil_r; reflexivity.
  - intros pipes1 pipes2 lines. rewrite !callPipe_applyInOrder.
    unfold applyInOrder. rewrite fold_left_app.
    generalize (fold_left (fun done pipe => bind done (callStage pipe))
                  pipes1 (ret lines)).
    intros m.
    exact (eq_sym (Array_reduce_fold
                     (fun inp pipe => callStage pipe inp) pipes2 m)).
Qed.

Lemma parsePipeline_Parsed_inv (text : jsstring) (check : bool)
  (evs : list Event) (pipe : Pipe) :
  parsePipeline collator_compare text check = (evs, Parsed pipe) ->
  evs = map factoryCall (stagesOf text)
  /\ List.length (stagesOf text) = S (countCodeunit 124%N text)
  /\ (check = false ->
      List.length (pipesOf pipe) = S (countCodeunit 124%N text)).
Proof.
  rewrite parsePipeline_stages.
  destruct (Array_map _ _) as [evs0 [pipes|e0]] eqn:Hm; [|discriminate].
  assert (Hlen : List.length (stagesOf text) = S (countCodeunit 124%N text))
    by (unfold stagesOf; rewrite length_map; apply split_length).
  intros H. repeat split.
  - destruct check; inversion H; subst;
      exact (Array_map_parsePipe_events _ _ Hm).
  - exact Hlen.
  - intros ->. inversion H; subst. cbn [pipesOf].
    rewrite (Array_map_length _ _ Hm). exact Hlen.
Qed.

(** X10: A parse that fails returns the error of the first stage that fails,
    after calling the factories of the stages before it and, when that
    stage names a property of the registry object, its factory; the error
    is one of the three kinds a stage can fail with. *)
Theorem parsePipeline_Failed (text : jsstring) (check : bool)
  (evs : list Event) (e : JsError) :
  parsePipeline collator_compare text check = (evs, Failed e) ->
  exists pre stage post pipes evs',
    stagesOf text = pre ++ stage :: post
    /\ Array_map (parsePipe collator_compare) pre
       = (map factoryCall pre, Normal pipes)
    /\ parsePipe collator_compare stage = (evs', Throw e)
    /\ evs = map factoryCall pre ++ evs'
    /\ ((e = Error (str "Unknown command: " ++ commandName stage)
         /\ ~ In (commandName stage) registryKeys
         /\ ~ In (commandName stage) objectPrototypeNames)
        \/ (e = Error (str "Invalid arguments")
            /\ (commandName stage = str "sort"
                /\ ~ In (commandArgs stage) sortArguments
                \/ commandName stage = str "uniq"
                   /\ commandArgs stage <> []))
        \/ ((exists cause, e = TypeError cause)
            /\ In (commandName stage) objectPrototypeNames)).
Proof. apply parsePipeline_Failed_inv. Qed.

(** X12: A parse that succeeds has called the factory of every stage once, in
    the order of the text, and without the check flag it returns one stage
    for each of them: one more than there are pipe characters. *)
Theorem parsePipeline_Parsed (text : jsstring) (check : bool)
  (evs : list Event) (pipe : Pipe) :
  parsePipeline collator_compare text check = (evs, Parsed pipe) ->
  evs = map factoryCall (stagesOf text)
  /\ List.length (stagesOf text) = S (countCodeunit 124%N text)
  /\ (check = false ->
      List.length (pipesOf pipe) = S (countCodeunit 124%N text)).
Proof. apply parsePipeline_Parsed_inv. Qed.

(** X13: Parsing, with or without the check flag, only calls factories, those
    of the first stages of the text in order: no stage runs, and the help
    document is not shown. *)
Theorem parsePipeline_events (text : jsstring) (check : bool) :
  (exists n,
     fst (parsePipeline collator_compare text check)
       = map factoryCall (firstn n (stagesOf text)))
  /\ forallb isFactoryCalled (fst (parsePipeline collator_compare text check))
     = true
  /\ fst (parsePipeline collator_compare text true)
     = fst (parsePipeline collator_compare text false).
Proof.
  assert (Hprefix : exists n,
            fst (parsePipeline collator_compare text check)
              = map factoryCall (firstn n (stagesOf text))).
  { destruct (parsePipeline collator_compare text check) as [evs [pipe|e]]
      eqn:Hp.
    - destruct (parsePipeline_Parsed_inv _ _ Hp) as [-> _].
      exists (List.length (stagesOf text)). rewrite firstn_all. reflexivity.
    - destruct (parsePipeline_Failed_inv _ _ Hp)
        as [pre [stage [post [pipes [evs' [Hst [_ [Hstage [-> _]]]]]]]]].
      rewrite Hst. rewrite parsePipe_tokens in Hstage.
      destruct (PIPES_get (commandName stage)) eqn:E.
      + exists (S (List.length pre)).
        rewrite firstn_app, firstn_all2 by lia.
        replace (S (List.length pre) - List.length pre) with 1 by lia.
        cbn [firstn fst]. rewrite map_app. f_equal.
        pose proof (callFactory_events collator_compare (Own factory)
                      (commandArgs stage)) as Hev.
        destruct (callFactory _ _ _) as [ev' r]. cbn in *. subst ev'.
        inversion Hstage. reflexivity.
      + exists (S (List.length pre)).
        rewrite firstn_app, firstn_all2 by lia.
        replace (S (List.length pre) - List.length pre) with 1 by lia.
        cbn [firstn fst]. rewrite map_app. f_equal.
        pose proof (callFactory_events collator_compare (Inherited f)
                      (commandArgs stage)) as Hev.
        destruct (callFactory _ _ _) as [ev' r]. cbn in *. subst ev'.
        inversion Hstage. reflexivity.
      + exists (S (List.length pre)).
        rewrite firstn_app, firstn_all2 by lia.
        replace (S (List.length pre) - List.length pre) with 1 by lia.
        cbn [firstn fst]. rewrite map_app. f_equal.
        inversion Hstage. reflexivity.
      + exists (List.length pre).
        rewrite firstn_app, firstn_all, Nat.sub_diag. cbn [firstn fst].
        inversion Hstage; subst. rewrite !app_nil_r. reflexivity. }
  split; [exact Hprefix|]. split.
  - destruct Hprefix as [n ->]. apply forallb_forall. intros ev Hev.
    apply in_map_iff in Hev. destruct Hev as [st [<- _]]. reflexivity.
  - apply parsePipeline_check_same_events.
Qed.

End MoreParsing.

(** ** Pipelines of line transforms *)

Lemma callStage_transform_within (pipe : Stage) (lines out : list jsstring)
  (evs : list Event) :
  isTransform pipe = true ->
  callStage pipe lines = (evs, Normal out) ->
  (forall x, In x out -> In x lines)
  /\ List.length out <= List.length lines.
Proof.
  destruct pipe as [c| | |items|s]; try discriminate; intros _ Hcall.
  - cbn in Hcall. inversion Hcall; subst. split.
    + intros x. apply Permutation_in, Permutation_sym, toSorted_Permutation.
    + rewrite <- (Permutation_length (toSorted_Permutation c lines)). lia.
  - destruct (uniq_distinct_lines_of_input lines) as [out' [Hu [Hnd Hin]]].
    rewrite Hu in Hcall. inversion Hcall; subst. split; [exact Hin|].
    apply NoDup_incl_length; [exact Hnd | exact Hin].
  - cbn in Hcall. inversion Hcall; subst. split; [tauto | lia].
Qed.

Lemma callPipe_transforms_within (pipes : list Stage)
  (lines out : list jsstring) (evs : list Event) :
  forallb isTransform pipes = true ->
  callPipe (pipeline pipes) lines = (evs, Normal out) ->
  (forall x, In x out -> In x lines)
  /\ List.length out <= List.length lines.
Proof.
  revert lines evs; induction pipes as [|p pipes IH]; intros lines evs.
  - intros _ H. cbn in H. inversion H; subst. split; [tauto | lia].
  - cbn [forallb]. rewrite andb_true_iff. intros [Hp Hps].
    rewrite callPipe_first.
    destruct (callStage p lines) as [e1 [mid|e]] eqn:Hstage; cbn [bind];
      [|discriminate].
    destruct (callPipe (pipeline pipes) mid) as [e2 [out'|e]] eqn:Hrest;
      [|discriminate].
    intros H; inversion H; subst.
    destruct (callStage_transform_within _ _ Hp Hstage) as [Hin1 Hlen1].
    destruct (IH _ _ Hps Hrest) as [Hin2 Hlen2].
    split; [auto | lia].
Qed.

(** X14: A pipeline of stages built by [sort], [uniq] and [help] returns only
    lines it was given, and not more lines than it was given. *)
Theorem transforms_within_input (pipes : list Stage)
  (lines out : list jsstring) (evs : list Event) :
  forallb isTransform pipes = true ->
  callPipe (pipeline pipes) lines = (evs, Normal out) ->
  (forall x, In x out -> In x lines)
  /\ List.length out <= List.length lines.
Proof. apply callPipe_transforms_within. Qed.

Lemma Array_map_Forall {A B} (f : A -> M B) (P : A -> Prop) (Q : B -> Prop)
  (l : list A) (evs : list Event) (ys : list B) :
  (forall x y e, P x -> f x = (e, Normal y) -> Q y) ->
  Forall P l -> Array_map f l = (evs, Normal ys) -> Forall Q ys.
Proof.
  intros HPQ HP. revert evs ys.
  induction HP as [|x r Hx _ IH]; intros evs ys; cbn [Array_map].
  - intros H; inversion H; constructor.
  - destruct (f x) as [e1 [y|e]] eqn:Hfx; cbn [bind]; [|discriminate].
    destruct (Array_map f r) as [e2 [ys'|e]] eqn:Hr; cbn; [|discriminate].
    intros H; inversion H; subst.
    constructor; [exact (HPQ _ _ _ Hx Hfx) | exact (IH _ _ eq_refl)].
Qed.

Section RegistryPipelines.

Variable collator_compare : Comparator.

Lemma parsePipe_registry (stage : jsstring) (evs : list Event) (pipe : Stage) :
  In (commandName stage) registryKeys ->
  parsePipe collator_compare stage = (evs, Normal pipe) ->
  isTransform pipe = true.
Proof.
  rewrite parsePipe_tokens.
  destruct (PIPES_get_cases (commandName stage))
    as [[Hn E]|[[Hn E]|[[Hn E]|[[Hn [[f E]|E]]|[Hr [_ E]]]]]];
    rewrite E; intros Hreg.
  - intros H; inversion H; reflexivity.
  - cbn [callFactory tell bind]. unfold sort.
    repeat (destruct (_ || _)); cbn; intros H; inversion H; reflexivity.
  - cbn [callFactory tell bind]. unfold uniq.
    destruct (Nat.ltb _ _); cbn; intros H; inversion H; reflexivity.
  - exfalso. revert Hn. unfold registryKeys in Hreg. cbn in Hreg.
    destruct Hreg as [<-|[<-|[<-|[]]]]; cbn; intuition discriminate.
  - exfalso. revert Hn. unfold registryKeys in Hreg. cbn in Hreg.
    destruct Hreg as [<-|[<-|[<-|[]]]]; cbn; intuition discriminate.
  - contradiction.
Qed.

(** X15: When every command name of a text is a key of the registry and the
    text parses, the pipeline returns on every input, and returns only
    lines of the input, not more than there were. *)
Theorem registry_pipeline_returns (text : jsstring) (pipe : Pipe)
  (lines : list jsstring) :
  (forall stage, In stage (stagesOf text) ->
                 In (commandName stage) registryKeys) ->
  snd (parsePipeline collator_compare text false) = Parsed pipe ->
  exists evs out,
    callPipe pipe lines = (evs, Normal out)
    /\ (forall x, In x out -> In x lines)
    /\ List.length out <= List.length lines.
Proof.
  intros Hreg. rewrite parsePipeline_stages.
  destruct (Array_map _ _) as [evs0 [pipes|e0]] eqn:Hm; [|discriminate].
  cbn [snd]. intros H; inversion H; subst pipe.
  assert (Ht : forallb isTransform pipes = true).
  { apply forallb_forall. apply Forall_forall.
    eapply (@Array_map_Forall _ _ (parsePipe collator_compare)
              (fun st => In (commandName st) registryKeys)
              (fun p => isTransform p = true));
      [|apply Forall_forall; exact Hreg|exact Hm].
    intros st p e Hst Hp. exact (parsePipe_registry _ Hst Hp). }
  destruct (callPipe_transforms pipes lines Ht) as [evs [out Hcall]].
  exists evs, out. split; [exact Hcall|].
  exact (callPipe_transforms_within _ _ Ht Hcall).
Qed.

End RegistryPipelines.

(** ** White space *)

Lemma trimStart_app (s t : jsstring) :
  trimStart (s ++ t) =
  match trimStart s with
  | [] => trimStart t
  | c :: r => (c :: r) ++ t
  end.
Proof.
  induction s as [|c r IH]; [reflexivity|].
  cbn [app trimStart]. destruct (isWhiteSpace c); [exact IH | reflexivity].
Qed.

Lemma forallb_rev {A} (f : A -> bool) (l : list A) :
  forallb f l = true -> forallb f (rev l) = true.
Proof.
  rewrite !forallb_forall. intros H x Hx. apply H, in_rev, Hx.
Qed.

Lemma trimEnd_app (s t : jsstring) :
  trimEnd (s ++ t) =
  match trimEnd t with
  | [] => trimEnd s
  | c :: r => s ++ c :: r
  end.
Proof.
  unfold trimEnd. rewrite rev_app_distr, trimStart_app.
  destruct (trimStart (rev t)) as [|c r] eqn:E; [reflexivity|].
  rewrite rev_app_distr, rev_involutive.
  destruct (rev (c :: r)) as [|c' r'] eqn:E'; [|reflexivity].
  apply (f_equal (@List.length _)) in E'. rewrite length_rev in E'.
  discriminate.
Qed.

Lemma trimEnd_whitespace (s : jsstring) :
  forallb isWhiteSpace s = true -> trimEnd s = [].
Proof.
  intros H. unfold trimEnd.
  rewrite (trimStart_whitespace _ (forallb_rev _ _ H)). reflexivity.
Qed.

(** White space before and after a text does not change what [trim]
    returns. *)
Lemma trim_pad (w1 s w2 : jsstring) :
  forallb isWhiteSpace w1 = true -> forallb isWhiteSpace w2 = true ->
  trim (w1 ++ s ++ w2) = trim s.
Proof.
  intros H1 H2. unfold trim.
  rewrite (trimStart_app w1), (trimStart_whitespace _ H1).
  cbv iota. rewrite (trimStart_app s).
  destruct (trimStart s) as [|c r].
  - rewrite (trimStart_whitespace _ H2). reflexivity.
  - rewrite trimEnd_app, (trimEnd_whitespace _ H2). reflexivity.
Qed.

Lemma whitespace_no_pipe (w : jsstring) :
  forallb isWhiteSpace w = true ->
  forallb (fun c => negb (codeunit_eqb c 124%N)) w = true.
Proof.
  rewrite !forallb_forall. intros H c Hc. specialize (H c Hc).
  unfold codeunit_eqb. destruct (N.eqb_spec c 124%N) as [->|]; [|reflexivity].
  discriminate.
Qed.

Lemma split_app_l (sep : codeunit) (w t : jsstring) :
  forallb (fun c => negb (codeunit_eqb c sep)) w = true ->
  exists piece pieces,
    split sep t = piece :: pieces
    /\ split sep (w ++ t) = (w ++ piece) :: pieces.
Proof.
  intros Hw. destruct (split_cons sep t) as [p [ps E]].
  exists p, ps. split; [exact E|].
  induction w as [|c r IH]; [exact E|].
  cbn [forallb] in Hw. apply andb_true_iff in Hw. destruct Hw as [Hc Hr].
  cbn [app split]. apply negb_true_iff in Hc. rewrite Hc, (IH Hr).
  reflexivity.
Qed.

Lemma split_app_r (sep : codeunit) (t w : jsstring) :
  forallb (fun c => negb (codeunit_eqb c sep)) w = true ->
  exists pieces piece,
    split sep t = pieces ++ [piece]
    /\ split sep (t ++ w) = pieces ++ [piece ++ w].
Proof.
  intros Hw. induction t as [|c r [init [last [E1 E2]]]].
  - exists [], []. split; [reflexivity|]. apply split_no_separator, Hw.
  - cbn [app split]. destruct (codeunit_eqb c sep).
    + exists ([] :: init), last. rewrite E1, E2. split; reflexivity.
    + rewrite E1, E2. destruct init as [|p ps].
      * exists [], (c :: last). split; reflexivity.
      * exists ((c :: p) :: ps), last. split; reflexivity.
Qed.

(** White space at the two ends of a text leaves its stages as they are. *)
Lemma stagesOf_pad (w1 t w2 : jsstring) :
  forallb isWhiteSpace w1 = true -> forallb isWhiteSpace w2 = true ->
  stagesOf (w1 ++ t ++ w2) = stagesOf t.
Proof.
  intros H1 H2. unfold stagesOf.
  destruct (split_app_l 124%N w1 (t ++ w2) (whitespace_no_pipe _ H1))
    as [p [ps [E1 ->]]].
  destruct (split_app_r 124%N t w2 (whitespace_no_pipe _ H2))
    as [init [last [E3 E4]]].
  rewrite E4 in E1. rewrite E3.
  cbn [map]. rewrite <- (app_nil_r (w1 ++ p)), <- app_assoc.
  rewrite (trim_pad w1 p [] H1 eq_refl).
  change (trim p :: map trim ps) with (map trim (p :: ps)).
  rewrite <- E1, !map_app. cbn [map]. f_equal. f_equal.
  exact (trim_pad [] last w2 eq_refl H2).
Qed.

Section WhiteSpace.

Variable collator_compare : Comparator.

(** X16: White space around a whole pipeline text and around a pipe character
    changes nothing of what [parsePipeline] returns, in either mode. *)
Theorem parsePipeline_white_space (w1 w2 : jsstring) (check : bool) :
  forallb isWhiteSpace w1 = true -> forallb isWhiteSpace w2 = true ->
  (forall text,
     parsePipeline collator_compare (w1 ++ text ++ w2) check
       = parsePipeline collator_compare text check)
  /\ (forall t1 t2,
        parsePipeline collator_compare (t1 ++ w1 ++ 124%N :: w2 ++ t2) check
          = parsePipeline collator_compare (t1 ++ 124%N :: t2) check).
Proof.
  intros H1 H2. split.
  - intros text. rewrite !parsePipeline_stages.
    rewrite (@stagesOf_pad w1 text w2 H1 H2). reflexivity.
  - intros t1 t2. rewrite !parsePipeline_stages, app_assoc, !stagesOf_app.
    pose proof (@stagesOf_pad [] t1 w1 eq_refl H1) as E1.
    pose proof (@stagesOf_pad w2 t2 [] H2 eq_refl) as E2.
    cbn [app] in E1. rewrite app_nil_r in E2. rewrite E1, E2.
    reflexivity.
Qed.

End WhiteSpace.

Lemma splitWhiteSpaceFrom_run (w b : jsstring) :
  forallb isWhiteSpace w = true ->
  splitWhiteSpaceFrom true [] (w ++ b) = splitWhiteSpaceFrom true [] b.
Proof.
  induction w as [|c r IH]; [reflexivity|].
  cbn [forallb app splitWhiteSpaceFrom]. rewrite andb_true_iff.
  intros [-> Hr]. exact (IH Hr).
Qed.

Lemma splitWhiteSpaceFrom_first_run (inRun : bool) (piece w b : jsstring) :
  w <> [] -> forallb isWhiteSpace w = true ->
  splitWhiteSpaceFrom inRun piece (w ++ b) =
  (if inRun then [] else [rev piece]) ++ splitWhiteSpaceFrom true [] b.
Proof.
  destruct w as [|c r]; [contradiction|]. intros _.
  cbn [forallb app splitWhiteSpaceFrom]. rewrite andb_true_iff.
  intros [-> Hr]. rewrite (splitWhiteSpaceFrom_run _ b Hr).
  destruct inRun; reflexivity.
Qed.

Lemma splitWhiteSpaceFrom_any_run (inRun : bool) (piece a w w' b : jsstring) :
  w <> [] -> forallb isWhiteSpace w = true ->
  w' <> [] -> forallb isWhiteSpace w' = true ->
  splitWhiteSpaceFrom inRun piece (a ++ w ++ b) =
  splitWhiteSpaceFrom inRun piece (a ++ w' ++ b).
Proof.
  intros Hw Hws Hw' Hws'. revert inRun piece.
  induction a as [|c r IH]; intros inRun piece.
  - cbn [app]. rewrite !splitWhiteSpaceFrom_first_run by assumption.
    reflexivity.
  - cbn [app splitWhiteSpaceFrom].
    destruct (isWhiteSpace c); [destruct inRun|]; rewrite ?IH; reflexivity.
Qed.

Lemma trim_around_run (a w b : jsstring) :
  w <> [] -> forallb isWhiteSpace w = true ->
  trim (a ++ w ++ b) =
  match trimStart a, trimEnd b with
  | [], _ => trim b
  | c :: r, [] => trimEnd (c :: r)
  | c :: r, d :: q => (c :: r) ++ w ++ d :: q
  end.
Proof.
  intros Hw Hws. unfold trim. rewrite (trimStart_app a).
  destruct (trimStart a) as [|c r].
  - rewrite (trimStart_app w), (trimStart_whitespace _ Hws). reflexivity.
  - rewrite (trimEnd_app (c :: r)), (trimEnd_app w).
    destruct (trimEnd b) as [|d q].
    + rewrite (trimEnd_whitespace _ Hws). reflexivity.
    + destruct w as [|x y]; [contradiction | reflexivity].
Qed.

Section WhiteSpaceRuns.

Variable collator_compare : Comparator.

(** X17: Inside a stage any run of white space separates like any other: the
    stage parses to the same result whatever white space, and however much
    of it, stands at a place where there is some. *)
Theorem parsePipe_white_space_run (a w w' b : jsstring) :
  w <> [] -> forallb isWhiteSpace w = true ->
  w' <> [] -> forallb isWhiteSpace w' = true ->
  splitWhiteSpace (trim (a ++ w ++ b)) = splitWhiteSpace (trim (a ++ w' ++ b))
  /\ parsePipe collator_compare (a ++ w ++ b)
     = parsePipe collator_compare (a ++ w' ++ b).
Proof.
  intros Hw Hws Hw' Hws'.
  assert (E : splitWhiteSpace (trim (a ++ w ++ b))
              = splitWhiteSpace (trim (a ++ w' ++ b))).
  { rewrite !trim_around_run by assumption.
    destruct (trimStart a) as [|c r]; [reflexivity|].
    destruct (trimEnd b) as [|d q]; [reflexivity|].
    apply splitWhiteSpaceFrom_any_run; assumption. }
  split; [exact E|]. unfold parsePipe. rewrite E. reflexivity.
Qed.

End WhiteSpaceRuns.

(** ** Array indices *)

Lemma isDigit_bounds (c : codeunit) :
  isDigit c = true -> (48 <= c <= 57)%N.
Proof.
  unfold isDigit. rewrite andb_true_iff, !N.leb_le. tauto.
Qed.

Lemma digitsValue_same_length (s t : jsstring) (acc acc' n : N) :
  List.length s = List.length t ->
  digitsValue acc s = Some n -> digitsValue acc' t = Some n ->
  acc = acc' /\ s = t.
Proof.
  revert t acc acc'; induction s as [|c r IH]; intros [|c' r'] acc acc';
    cbn [List.length digitsValue]; try discriminate.
  - intros _ H H'. inversion H; inversion H'; subst. auto.
  - intros Hlen. destruct (isDigit c) eqn:Hc; [|discriminate].
    destruct (isDigit c') eqn:Hc'; [|discriminate].
    intros H H'. apply isDigit_bounds in Hc. apply isDigit_bounds in Hc'.
    destruct (IH r' _ _ (eq_add_S _ _ Hlen) H H') as [Hacc ->].
    assert (acc = acc' /\ c = c') as [-> ->] by lia. auto.
Qed.

Lemma digitsValue_bounds (s : jsstring) (acc n : N) :
  digitsValue acc s = Some n ->
  (acc * 10 ^ N.of_nat (List.length s) <= n
   < (acc + 1) * 10 ^ N.of_nat (List.length s))%N.
Proof.
  revert acc; induction s as [|c r IH]; intros acc;
    cbn [List.length digitsValue].
  - intros H; inversion H; subst. cbn. lia.
  - destruct (isDigit c) eqn:Hc; [|discriminate]. intros H.
    apply isDigit_bounds in Hc. apply IH in H.
    rewrite Nat2N.inj_succ, N.pow_succ_r'.
    set (P := (10 ^ N.of_nat (List.length r))%N) in *. nia.
Qed.

Lemma arrayIndex_digits (key : jsstring) (n : N) :
  arrayIndex key = Some n ->
  digitsValue 0 key = Some n
  /\ (key = [48%N]
      \/ exists c r, key = c :: r /\ (49 <= c <= 57)%N).
Proof.
  unfold arrayIndex. destruct key as [|c r]; [discriminate|].
  destruct (codeunit_eqb c 48%N && negb (Nat.eqb (List.length r) 0)) eqn:E;
    [discriminate|].
  destruct (digitsValue 0 (c :: r)) as [v|] eqn:Hv; [|discriminate].
  destruct (v <=? 4294967294)%N; [|discriminate].
  intros H; inversion H; subst v. split; [reflexivity|].
  cbn [digitsValue] in Hv. destruct (isDigit c) eqn:Hc; [|discriminate].
  apply isDigit_bounds in Hc. apply andb_false_iff in E.
  unfold codeunit_eqb in E. destruct E as [E|E].
  - apply N.eqb_neq in E. right. exists c, r. split; [reflexivity | lia].
  - apply negb_false_iff, Nat.eqb_eq in E. destruct r; [|discriminate].
    destruct (N.eq_dec c 48%N) as [->|Hne]; [left; reflexivity|].
    right. exists c, []. split; [reflexivity | lia].
Qed.

Lemma canonical_bounds (c : codeunit) (r : jsstring) (n : N) :
  (49 <= c <= 57)%N -> digitsValue 0 (c :: r) = Some n ->
  (10 ^ N.of_nat (List.length r) <= n
   < 10 ^ N.of_nat (S (List.length r)))%N.
Proof.
  intros Hc H. cbn [digitsValue] in H.
  destruct (isDigit c); [|discriminate].
  apply digitsValue_bounds in H.
  rewrite Nat2N.inj_succ, N.pow_succ_r'.
  set (P := (10 ^ N.of_nat (List.length r))%N) in *. nia.
Qed.

(** Two keys that are the same array index are the same key: the numeric
    order of [Object.keys] leaves no two index keys unordered. *)
Lemma arrayIndex_injective (a b : jsstring) (n : N) :
  arrayIndex a = Some n -> arrayIndex b = Some n -> a = b.
Proof.
  intros Ha Hb.
  destruct (arrayIndex_digits _ Ha) as [Da [->|[c [r [-> Hc]]]]];
    destruct (arrayIndex_digits _ Hb) as [Db [->|[c' [r' [-> Hc']]]]].
  - reflexivity.
  - cbn in Da. inversion Da; subst n.
    pose proof (canonical_bounds _ Hc' Db) as [Hlow _].
    pose proof (N.pow_nonzero 10 (N.of_nat (List.length r'))). lia.
  - cbn in Db. inversion Db; subst n.
    pose proof (canonical_bounds _ Hc Da) as [Hlow _].
    pose proof (N.pow_nonzero 10 (N.of_nat (List.length r))). lia.
  - pose proof (canonical_bounds _ Hc Da) as [Hlow Hhigh].
    pose proof (canonical_bounds _ Hc' Db) as [Hlow' Hhigh'].
    assert (Hlen : List.length r = List.length r').
    { destruct (Nat.lt_trichotomy (List.length r) (List.length r'))
        as [Hlt|[Heq|Hgt]]; [exfalso|exact Heq|exfalso].
      - assert (10 ^ N.of_nat (S (List.length r))
                <= 10 ^ N.of_nat (List.length r'))%N
          by (apply N.pow_le_mono_r; lia).
        lia.
      - assert (10 ^ N.of_nat (S (List.length r'))
                <= 10 ^ N.of_nat (List.length r))%N
          by (apply N.pow_le_mono_r; lia).
        lia. }
    apply (@digitsValue_same_length (c :: r) (c' :: r') 0%N 0%N n);
      [cbn; lia | exact Da | exact Db].
Qed.

Lemma indices_strictly_sorted (keys : list jsstring) :
  StronglySorted (fun a b => (indexValue a <= indexValue b)%N) keys ->
  NoDup keys ->
  Forall (fun k => isArrayIndex k = true) keys ->
  StronglySorted (fun a b => (indexValue a < indexValue b)%N) keys.
Proof.
  induction 1 as [|k r Hr IH Hk]; intros Hnd Hidx; [constructor|].
  inversion Hnd as [|? ? Hnotin Hnd']; subst.
  inversion Hidx as [|? ? Hik Hidx']; subst.
  constructor; [exact (IH Hnd' Hidx')|].
  rewrite Forall_forall in *. intros x Hx.
  specialize (Hk x Hx). specialize (Hidx' x Hx).
  destruct (N.eq_dec (indexValue k) (indexValue x)) as [E|E]; [|lia].
  exfalso. apply Hnotin.
  unfold isArrayIndex, indexValue in *.
  destruct (arrayIndex k) as [n|] eqn:Ek; [|discriminate].
  destruct (arrayIndex x) as [m|] eqn:Ex; [|discriminate].
  subst m. rewrite (@arrayIndex_injective k x n Ek Ex). exact Hx.
Qed.

(** X6: How [uniq] orders its output: first the lines that are array indices,
    in strictly ascending numeric order, then the other lines in the order
    of their first occurrence in the input. *)
Theorem uniq_order (lines : list jsstring) :
  exists indices,
    callStage UniqLines lines =
      ([], Normal (indices ++
                   filter (fun k => negb (isArrayIndex k))
                     (firstOccurrences (withoutProto lines))))
    /\ Permutation indices
         (filter isArrayIndex (firstOccurrences (withoutProto lines)))
    /\ StronglySorted (fun a b => (indexValue a < indexValue b)%N) indices.
Proof.
  set (o := firstOccurrences (withoutProto lines)).
  assert (Hperm : Permutation (fold_right insertIndex [] (filter isArrayIndex o))
                    (filter isArrayIndex o)).
  { induction (filter isArrayIndex o) as [|k r IH]; cbn [fold_right];
      [reflexivity|].
    rewrite <- insertIndex_Permutation. apply perm_skip, IH. }
  exists (fold_right insertIndex [] (filter isArrayIndex o)).
  split; [apply uniq_Object_keys|]. split; [exact Hperm|].
  apply indices_strictly_sorted.
  - apply fold_insertIndex_sorted.
  - eapply Permutation_NoDup; [apply Permutation_sym, Hperm|].
    apply NoDup_filter, firstOccurrencesFrom_NoDup.
  - apply Object_keys_indices.
Qed.

(** ** The further properties at concrete inputs *)

Lemma executeCommand_Replaced_witness :
  exists text editor pipe out evs1 evs2,
    Some (str "sort") = Some text /\ text <> []
    /\ Some exampleEditor = Some editor
    /\ parsePipeline codeunitCompare text false = (evs1, Parsed pipe)
    /\ callPipe pipe (fst (getTextLines (Some editor))) = (evs2, Normal out)
    /\ [FactoryCalled (str "sort") []] = evs1 ++ evs2
    /\ newRange 0 0 1 1 = snd (getTextLines (Some editor))
    /\ [97%N; 10%N; 98%N] = join [10%N] out.
Proof.
  apply (@executeCommand_Replaced codeunitCompare (Some (str "sort"))
           (Some exampleEditor)).
  reflexivity.
Defined.

Lemma validateInput_executeCommand_witness :
  snd (executeCommand codeunitCompare (Some (str "sort -x")) (Some exampleEditor))
    = ErrorShown (Error (str "Invalid arguments"))
  /\ snd (validateInput codeunitCompare (str "uniq a"))
     = Some (Error (str "Invalid arguments")).
Proof.
  destruct (validateInput_executeCommand codeunitCompare (Some exampleEditor))
    as [Hsame _].
  split.
  - apply (proj1 (Hsame (str "sort -x") (Error (str "Invalid arguments"))
                    ltac:(discriminate))).
    reflexivity.
  - apply (proj2 (Hsame (str "uniq a") (Error (str "Invalid arguments"))
                    ltac:(discriminate))).
    reflexivity.
Defined.

Lemma executeCommand_unchanged_lines_witness :
  executeCommand codeunitCompare (Some (str "help")) (Some exampleEditor)
    = ([FactoryCalled (str "help") []] ++ [HelpDocumentShown],
       Replaced (newRange 0 0 1 1) [98%N; 10%N; 97%N]).
Proof.
  apply (@executeCommand_unchanged_lines codeunitCompare (str "help")
           exampleEditor (pipeline [HelpLines])).
  - discriminate.
  - reflexivity.
  - reflexivity.
Defined.

Lemma sort_after_sort_witness :
  exists pipe1 pipe2,
    sort codeunitCompare [str "asc"] = ([], Normal pipe1)
    /\ sort codeunitCompare [str "-d"] = ([], Normal pipe2)
    /\ callPipe (pipeline [pipe1; pipe2]) [str "b"; str "c"; str "a"]
       = callPipe (pipeline [pipe2]) [str "b"; str "c"; str "a"].
Proof.
  apply (@sort_after_sort codeunitCompare codeunitCompare_antisym
           codeunitCompare_trans [str "asc"] [str "-d"]);
    simpl; tauto.
Defined.

Lemma parsePipe_transform_iff_witness :
  exists evs pipe,
    parsePipe codeunitCompare (str "sort  desc") = (evs, Normal pipe)
    /\ isTransform pipe = true.
Proof.
  apply (proj2 (parsePipe_transform_iff codeunitCompare (str "sort  desc"))).
  right; right. split; [reflexivity|]. simpl. tauto.
Defined.

Lemma parsePipeline_Failed_witness :
  exists pre stage post pipes evs',
    stagesOf (str "uniq | sort up | help") = pre ++ stage :: post
    /\ Array_map (parsePipe codeunitCompare) pre
       = (map factoryCall pre, Normal pipes)
    /\ parsePipe codeunitCompare stage
       = (evs', Throw (Error (str "Invalid arguments")))
    /\ [FactoryCalled (str "uniq") []; FactoryCalled (str "sort") [str "up"]]
       = map factoryCall pre ++ evs'
    /\ ((Error (str "Invalid arguments")
           = Error (str "Unknown command: " ++ commandName stage)
         /\ ~ In (commandName stage) registryKeys
         /\ ~ In (commandName stage) objectPrototypeNames)
        \/ (Error (str "Invalid arguments") = Error (str "Invalid arguments")
            /\ (commandName stage = str "sort"
                /\ ~ In (commandArgs stage) sortArguments
                \/ commandName stage = str "uniq"
                   /\ commandArgs stage <> []))
        \/ ((exists cause, Error (str "Invalid arguments") = TypeError cause)
            /\ In (commandName stage) objectPrototypeNames)).
Proof.
  apply (@parsePipeline_Failed codeunitCompare (str "uniq | sort up | help")
           false).
  reflexivity.
Defined.

Lemma parsePipeline_Parsed_witness :
  [FactoryCalled (str "uniq") []; FactoryCalled (str "sort") [str "desc"]]
    = map factoryCall (stagesOf (str "uniq | sort desc"))
  /\ List.length (stagesOf (str "uniq | sort desc"))
     = S (countCodeunit 124%N (str "uniq | sort desc"))
  /\ (false = false ->
      List.length
        (pipesOf (pipeline [UniqLines;
                            SortLines (fun a b => (- codeunitCompare a b)%Z)]))
      = S (countCodeunit 124%N (str "uniq | sort desc"))).
Proof.
  apply (@parsePipeline_Parsed codeunitCompare (str "uniq | sort desc") false).
  reflexivity.
Defined.

Lemma transforms_within_input_witness :
  (forall x, In x [str "1"; str "b"] ->
             In x [str "b"; str "1"; str "b"])
  /\ List.length [str "1"; str "b"] <= List.length [str "b"; str "1"; str "b"].
Proof.
  apply (@transforms_within_input [UniqLines; SortLines codeunitCompare]
           [str "b"; str "1"; str "b"] [str "1"; str "b"] []);
    reflexivity.
Defined.

Lemma registry_pipeline_returns_witness :
  exists evs out,
    callPipe (pipeline [HelpLines; UniqLines]) [str "b"; str "b"]
      = (evs, Normal out)
    /\ (forall x, In x out -> In x [str "b"; str "b"])
    /\ List.length out <= List.length [str "b"; str "b"].
Proof.
  apply (@registry_pipeline_returns codeunitCompare (str "help | uniq")).
  - intros stage. simpl. intros [<-|[<-|[]]]; vm_compute; tauto.
  - reflexivity.
Defined.

Lemma parsePipeline_white_space_witness :
  parsePipeline codeunitCompare (str "  uniq ") true
    = parsePipeline codeunitCompare (str "uniq") true
  /\ parsePipeline codeunitCompare (str "uniq  | sort") true
     = parsePipeline codeunitCompare (str "uniq|sort") true.
Proof.
  destruct (@parsePipeline_white_space codeunitCompare (str "  ") (str " ")
              true eq_refl eq_refl) as [Hends Hpipe].
  split.
  - exact (Hends (str "uniq")).
  - exact (Hpipe (str "uniq") (str "sort")).
Defined.

Lemma parsePipe_white_space_run_witness :
  splitWhiteSpace (trim (str "sort   asc")) = splitWhiteSpace (trim (str "sort asc"))
  /\ parsePipe codeunitCompare (str "sort   asc")
     = parsePipe codeunitCompare (str "sort asc").
Proof.
  apply (@parsePipe_white_space_run codeunitCompare (str "sort") (str "   ")
           (str " ") (str "asc"));
    first [discriminate | reflexivity].
Defined.

(** ** [uniq | sort], and the handler on registry commands *)

Section UniqThenSort.

Variable collator_compare : Comparator.

Hypothesis collator_antisym :
  forall a b, Z.sgn (collator_compare b a) = (- Z.sgn (collator_compare a b))%Z.

Hypothesis collator_trans :
  forall a b c,
    (collator_compare a b <= 0)%Z -> (collator_compare b c <= 0)%Z ->
    (collator_compare a c <= 0)%Z.

(** X19: For a consistent collator the text ["uniq | sort"] parses to a pipeline
    that returns, on every input, a list without repetition, in which no
    line compares greater than a later one, and whose lines are exactly the
    lines of the input other than [__proto__]. *)
Theorem uniq_then_sort (lines : list jsstring) :
  exists pipe out,
    snd (parsePipeline collator_compare (str "uniq | sort") false) = Parsed pipe
    /\ callPipe pipe lines = ([], Normal out)
    /\ NoDup out
    /\ StronglySorted (before collator_compare) out
    /\ (forall x, In x out <-> In x lines /\ x <> str "__proto__").
Proof using collator_antisym collator_trans.
  exists (pipeline [UniqLines; SortLines collator_compare]).
  exists (toSorted collator_compare
            (Object_keys (firstOccurrences (withoutProto lines)))).
  split; [reflexivity|]. split.
  { cbn [callPipe Array_reduce]. rewrite uniq_Object_keys. reflexivity. }
  set (keys := Object_keys (firstOccurrences (withoutProto lines))).
  assert (Hkeys : Permutation (firstOccurrences (withoutProto lines)) keys)
    by apply Object_keys_Permutation.
  pose proof (toSorted_Permutation collator_compare keys) as Hsorted.
  split; [|split].
  - eapply Permutation_NoDup; [exact Hsorted|].
    eapply Permutation_NoDup; [exact Hkeys|].
    apply firstOccurrencesFrom_NoDup.
  - apply toSorted_StronglySorted;
      [exact (@collator_connex collator_compare collator_antisym)
      |exact collator_trans].
  - intros x. rewrite <- withoutProto_In. split.
    + intros H. apply (Permutation_in x (Permutation_sym Hsorted)) in H.
      apply (Permutation_in x (Permutation_sym Hkeys)) in H.
      exact (firstOccurrencesFrom_In _ _ _ H).
    + intros H. apply (Permutation_in x Hsorted), (Permutation_in x Hkeys).
      destruct (firstOccurrencesFrom_complete [] _ _ H) as [[]|H']. exact H'.
Qed.

End UniqThenSort.

Section HandlerOnRegistry.

Variable collator_compare : Comparator.

(** X20: When every command name of a non-empty text is a key of the registry,
    the handler never ends with a throw: it shows the parse error, or
    replaces the selected lines, or, without an editor, replaces
    nothing. *)
Theorem executeCommand_registry (text : jsstring)
  (activeTextEditor : option TextEditor) :
  text <> [] ->
  (forall stage, In stage (stagesOf text) ->
                 In (commandName stage) registryKeys) ->
  (exists e,
     snd (executeCommand collator_compare (Some text) activeTextEditor)
       = ErrorShown e)
  \/ (exists range written,
        snd (executeCommand collator_compare (Some text) activeTextEditor)
          = Replaced range written)
  \/ (activeTextEditor = None
      /\ snd (executeCommand collator_compare (Some text) activeTextEditor)
         = NothingReplaced).
Proof.
  intros Hne Hreg. destruct text as [|c r]; [contradiction|].
  rewrite executeCommand_text, parsePipeline_stages.
  destruct (Array_map _ _) as [evs0 [pipes|e0]] eqn:Hm; cbn [snd];
    [|left; eauto].
  assert (Ht : forallb isTransform pipes = true).
  { apply forallb_forall. apply Forall_forall.
    eapply (@Array_map_Forall _ _ (parsePipe collator_compare)
              (fun st => In (commandName st) registryKeys)
              (fun p => isTransform p = true));
      [|apply Forall_forall; exact Hreg|exact Hm].
    intros st p e Hst Hp. exact (parsePipe_registry _ _ Hst Hp). }
  destruct (callPipe_transforms pipes (fst (getTextLines activeTextEditor)) Ht)
    as [evs [out Hcall]].
  rewrite Hcall. destruct activeTextEditor as [editor|]; cbn [snd].
  - right; left. eauto.
  - right; right. split; reflexivity.
Qed.

End HandlerOnRegistry.

Lemma uniq_then_sort_witness :
  exists pipe out,
    snd (parsePipeline codeunitCompare (str "uniq | sort") false) = Parsed pipe
    /\ callPipe pipe [str "b"; str "a"; str "b"] = ([], Normal out)
    /\ NoDup out
    /\ StronglySorted (before codeunitCompare) out
    /\ (forall x, In x out <->
                  In x [str "b"; str "a"; str "b"] /\ x <> str "__proto__").
Proof.
  exact (@uniq_then_sort codeunitCompare codeunitCompare_antisym
           codeunitCompare_trans [str "b"; str "a"; str "b"]).
Defined.

Lemma executeCommand_registry_witness :
  (exists e,
     snd (executeCommand codeunitCompare (Some (str "uniq | sort desc"))
            (Some exampleEditor)) = ErrorShown e)
  \/ (exists range written,
        snd (executeCommand codeunitCompare (Some (str "uniq | sort desc"))
               (Some exampleEditor)) = Replaced range written)
  \/ (Some exampleEditor = None
      /\ snd (executeCommand codeunitCompare (Some (str "uniq | sort desc"))
                (Some exampleEditor)) = NothingReplaced).
Proof.
  apply (@executeCommand_registry codeunitCompare (str "uniq | sort desc")
           (Some exampleEditor)).
  - discriminate.
  - intros stage. simpl. intros [<-|[<-|[]]]; vm_compute; tauto.
Defined.

Lemma uniq_firstOccurrences_witness :
  callStage UniqLines [str "b"; str "a"; str "b"; str "01"]
    = ([], Normal (firstOccurrences [str "b"; str "a"; str "b"; str "01"])).
Proof.
  apply (@uniq_firstOccurrences [str "b"; str "a"; str "b"; str "01"]).
  - simpl. intros line [<-|[<-|[<-|[<-|[]]]]]; reflexivity.
  - simpl. intuition discriminate.
Defined.
